(** * Scala import sorter: a shallow embedding of [ScalaImportSorter]

    The development follows
    [src/python/foursquare/source_code_analysis/scala/scala_import_sorter.py].
    The comparators, the block processor and the cursor loop are translated
    from that file.  The clause classes, the import parser and the rewrite
    cursor live in sibling modules; each of them is modelled from the written
    specification and is marked as such. *)

From Stdlib Require Import ZArith Lia Ascii String.
From stdpp Require Import gmap strings list sorting.

Local Open Scope string_scope.
Local Open Scope list_scope.
Local Open Scope Z_scope.

(** ** Text *)

(** The newline character and the one-character text ['\n']. *)
Definition newline_char : ascii := ascii_of_nat 10.
Definition nl : string := String newline_char EmptyString.

(** Python's [cmp] on two texts: code-point lexicographic comparison,
    answering [-1], [0] or [1]. *)
Definition cmp (a b : string) : Z :=
  match String.compare a b with
  | Lt => -1
  | Eq => 0
  | Gt => 1
  end.

(** Python's [text.replace(old, new)] for one-character [old] and [new]. *)
Fixpoint replace (old new : ascii) (s : string) : string :=
  match s with
  | EmptyString => EmptyString
  | String c s' =>
      String (if Ascii.eqb c old then new else c) (replace old new s')
  end.

(** Python's [sep.join(parts)]. *)
Definition join (sep : string) (parts : list string) : string :=
  String.concat sep parts.

(** Python's [text * n] for the one-character text ['\n']. *)
Fixpoint newlines (n : nat) : string :=
  match n with
  | O => EmptyString
  | S n' => String newline_char (newlines n')
  end.

(** ** Python's [sorted(items, cmp=f)]

    [sorted] is a stable sort that only ever asks whether [f y x < 0].  Both
    comparators of the sorter compare a text key, so they are total
    preorders, and for such a comparator every stable sort returns the same
    list; stable insertion is used as its model. *)
Section Sorted.
Context {A : Type} (f : A -> A -> Z).

Fixpoint insert_sorted (x : A) (l : list A) : list A :=
  match l with
  | [] => [x]
  | y :: l' => if f y x <? 0 then y :: insert_sorted x l' else x :: y :: l'
  end.

Fixpoint sorted (l : list A) : list A :=
  match l with
  | [] => []
  | x :: l' => insert_sorted x (sorted l')
  end.

(** No element is asked to move in front of its predecessor. *)
Fixpoint is_sorted (l : list A) : bool :=
  match l with
  | [] => true
  | x :: l' =>
      match l' with
      | [] => true
      | y :: _ => negb (f y x <? 0)
      end && is_sorted l'
  end.
End Sorted.

(** A comparator that compares a text key of its arguments. *)
Definition cmp_by {A : Type} (key : A -> string) (x y : A) : Z :=
  cmp (key x) (key y).

(** ** The clause classes *)

(** Modelled from the spec: the path class of the import parser, an ordered
    sequence of at least one identifier segment.  [path_parts[0]] is the
    field [top_level], so it is always defined. *)
Record Path := mkPath { top_level : string; sub_parts : list string }.

Definition path_parts (p : Path) : list string := top_level p :: sub_parts p.
Definition path_string (p : Path) : string := join "." (path_parts p).
Definition get_top_level (p : Path) : string := top_level p.

(** Modelled from the spec: one imported symbol.  [name] is what the source
    reads as [imp.path.get_name()]; [as_name] is the optional rename. *)
Record ScalaImport := mkImport { name : string; as_name : option string }.

(** Modelled from the spec: an import clause, with the indentation that
    [str_no_indent] leaves out. *)
Record ImportClause := mkClause {
  indent : string;
  path : Path;
  imports : list ScalaImport
}.

#[global] Instance Path_eq_dec : EqDecision Path.
Proof. solve_decision. Defined.
#[global] Instance ScalaImport_eq_dec : EqDecision ScalaImport.
Proof. solve_decision. Defined.
#[global] Instance ImportClause_eq_dec : EqDecision ImportClause.
Proof. solve_decision. Defined.

(** Modelled from the spec: [add_import(name, as_name)] appends one entry to
    the clause's imports. *)
Definition add_import (c : ImportClause) (n : string) (a : option string)
  : ImportClause :=
  {| indent := indent c; path := path c;
     imports := imports c ++ [ {| name := n; as_name := a |} ] |}.

(** Modelled from the spec: the order [sort_imports] uses, alphabetical by
    name in code-point order with the wildcard [_] last. *)
Definition cmp_imports (a b : ScalaImport) : Z :=
  match String.eqb (name a) "_", String.eqb (name b) "_" with
  | true, true => 0
  | true, false => 1
  | false, true => -1
  | false, false => cmp (name a) (name b)
  end.

(** Modelled from the spec: [sort_imports()] sorts the clause's own imports. *)
Definition sort_imports (c : ImportClause) : ImportClause :=
  {| indent := indent c; path := path c;
     imports := sorted cmp_imports (imports c) |}.

(** Modelled from the spec: one entry of a braced selector, [name] or
    [name => alias]. *)
Definition import_token (i : ScalaImport) : string :=
  match as_name i with
  | None => name i
  | Some a => name i +:+ " => " +:+ a
  end.

(** Modelled from the spec: the selector, the bare name for a single import
    without alias and a braced comma-separated list otherwise. *)
Definition selector (imps : list ScalaImport) : string :=
  match imps with
  | [ {| name := n; as_name := None |} ] => n
  | _ => "{" +:+ join ", " (map import_token imps) +:+ "}"
  end.

(** Modelled from the spec: the clause's statement without indentation,
    [import <path>.<selector>]. *)
Definition str_no_indent (c : ImportClause) : string :=
  "import " +:+ path_string (path c) +:+ "." +:+ selector (imports c).

(** Modelled from the spec: [str(clause)], the statement with its
    indentation. *)
Definition str (c : ImportClause) : string := indent c +:+ str_no_indent c.

(** ** The comparators *)

(** [_special_cases]: the fake sort key prefixes. *)
Definition _special_cases : gmap string string :=
  {[ "java" := "aaa0"; "javax" := "aaa1"; "scala" := "aaa2";
     "scalax" := "aaa3" ]}.

Definition string_for_cmp (clause : ImportClause) : string :=
  replace "{" " " (str_no_indent clause).

Definition cmp_clauses (left right : ImportClause) : Z :=
  cmp (string_for_cmp left) (string_for_cmp right).

(** The sort key [cmp_clauses_fancy] builds for one side. *)
Definition fancy_sort_key (clause : ImportClause) : string :=
  default "" (_special_cases !! top_level (path clause))
  +:+ path_string (path clause).

Definition cmp_clauses_fancy (left right : ImportClause) : Z :=
  cmp (fancy_sort_key left) (fancy_sort_key right).

(** ** [_process_import_block] *)

(** The comparator the block processor selects. *)
Definition select_cmp (fancy : bool) : ImportClause -> ImportClause -> Z :=
  if fancy then cmp_clauses_fancy else cmp_clauses.

(** The merge loop.  [current_clause] is the last element of
    [merged_clauses] and is updated in place, so the loop state keeps the
    earlier elements and the current one apart. *)
Definition merge_state : Type := list ImportClause * option ImportClause.

Definition add_all_imports (current clause : ImportClause) : ImportClause :=
  foldl (fun c imp => add_import c (name imp) (as_name imp))
        current (imports clause).

Definition merge_clause (st : merge_state) (clause : ImportClause)
  : merge_state :=
  match st with
  | (done, Some current) =>
      if decide (path current = path clause)
      then (done, Some (add_all_imports current clause))
      else (done ++ [current], Some clause)
  | (done, None) => (done, Some clause)
  end.

Definition merged_of_state (st : merge_state) : list ImportClause :=
  fst st ++ option_list (snd st).

Definition merge_clauses (sorted_clauses : list ImportClause)
  : list ImportClause :=
  merged_of_state (foldl merge_clause ([], None) sorted_clauses).

(** [clause.path.get_top_level() in _special_cases]. *)
Definition in_special_cases (clause : ImportClause) : bool :=
  bool_decide (is_Some (_special_cases !! get_top_level (path clause))).

(** The serialisation loop; the state is [lines] and
    [in_special_case_block]. *)
Definition emit_clause (fancy : bool) (st : list string * bool)
    (clause : ImportClause) : list string * bool :=
  let clause := sort_imports clause in
  let '(lines, in_special_case_block) := st in
  if fancy && in_special_cases clause
  then (lines ++ [str clause], true)
  else if fancy
       then ((if in_special_case_block then lines ++ [""] else lines)
               ++ [str clause], false)
       else (lines ++ [str clause], in_special_case_block).

Definition block_lines (fancy : bool) (merged_clauses : list ImportClause)
  : list string :=
  fst (foldl (emit_clause fancy) ([], false) merged_clauses).

Definition _process_import_block (fancy : bool) (clauses : list ImportClause)
  : string :=
  let sorted_clauses := sorted (select_cmp fancy) clauses in
  let merged_clauses := merge_clauses sorted_clauses in
  join nl (block_lines fancy merged_clauses) +:+ nl.

(** The clauses the returned text serialises: the merged clauses, each with
    its imports sorted. *)
Definition processed_clauses (fancy : bool) (clauses : list ImportClause)
  : list ImportClause :=
  map sort_imports (merge_clauses (sorted (select_cmp fancy) clauses)).

(** ** Lexicographic order on texts

    The order the written specification describes in words: the first
    differing code point decides, and a proper prefix comes first. *)

Definition code_point (c : ascii) : N := N_of_ascii c.

Inductive lex_lt : string -> string -> Prop :=
| lex_lt_prefix c s : lex_lt EmptyString (String c s)
| lex_lt_head a b s t :
    (code_point a < code_point b)%N -> lex_lt (String a s) (String b t)
| lex_lt_tail a s t : lex_lt s t -> lex_lt (String a s) (String a t).

(** The mapping of every ['{'] to a space, character by character. *)
Definition brace_to_space (c : ascii) : ascii :=
  if Ascii.eqb c "{" then " "%char else c.

Fixpoint map_chars (g : ascii -> ascii) (s : string) : string :=
  match s with
  | EmptyString => EmptyString
  | String c s' => String (g c) (map_chars g s')
  end.

(** The rank prefix of a top-level segment, as the specification lists it. *)
Definition rank_prefix (top : string) : string :=
  if String.eqb top "java" then "aaa0"
  else if String.eqb top "javax" then "aaa1"
  else if String.eqb top "scala" then "aaa2"
  else if String.eqb top "scalax" then "aaa3"
  else "".

(** Whether a top-level segment is one of the four special packages. *)
Definition is_special_top (top : string) : bool :=
  String.eqb top "java" || String.eqb top "javax"
  || String.eqb top "scala" || String.eqb top "scalax".


(** Letters, for the strict-order property. *)
Definition is_letter (c : ascii) : bool :=
  let n := code_point c in
  ((65 <=? n) && (n <=? 90) || (97 <=? n) && (n <=? 122))%N.

(** The canonical textual form the strict comparator is specified on. *)
Definition canonical_form (c : ImportClause) : string :=
  map_chars brace_to_space (str_no_indent c).

(** The order a text key induces on its carriers. *)
Definition key_le {A : Type} (key : A -> string) (x y : A) : Prop :=
  cmp (key x) (key y) <= 0.

(** A clause with its imports replaced. *)
Definition with_imports (c : ImportClause) (imps : list ScalaImport)
  : ImportClause :=
  {| indent := indent c; path := path c; imports := imps |}.

(** The merge loop once a current clause exists, as a recursion on the
    clauses still to come. *)
Fixpoint merge_from (current : ImportClause) (l : list ImportClause)
  : list ImportClause :=
  match l with
  | [] => [current]
  | clause :: l' =>
      if decide (path current = path clause)
      then merge_from (add_all_imports current clause) l'
      else current :: merge_from clause l'
  end.

(** The [(path, name, alias)] triples of a clause and of a block. *)
Definition import_triples (c : ImportClause)
  : list (Path * string * option string) :=
  map (fun i => (path c, name i, as_name i)) (imports c).

Definition block_triples (l : list ImportClause)
  : list (Path * string * option string) :=
  flat_map import_triples l.

(** Equal-path clauses sit next to each other: once the path changes, the
    earlier path does not come back. *)
Fixpoint paths_contiguous (l : list ImportClause) : bool :=
  match l with
  | [] => true
  | a :: l' =>
      match l' with
      | [] => true
      | b :: _ =>
          bool_decide (path a = path b
                       \/ Forall (fun c => path c <> path a) l')
      end && paths_contiguous l'
  end.

(** Distinct paths of the block have distinct fancy sort keys. *)
Definition fancy_keys_injective (block : list ImportClause) : Prop :=
  forall a b, a ∈ block -> b ∈ block ->
    fancy_sort_key a = fancy_sort_key b -> path a = path b.

(** The merge-correctness property: for each path of the block the
    processed clauses hold exactly one clause of that path, and its imports
    are those of all input clauses of that path. *)
Definition one_clause_per_path (fancy : bool) (block : list ImportClause)
  : Prop :=
  forall p, p ∈ map path block ->
    exists c,
      filter (fun x => path x = p) (processed_clauses fancy block) = [c]
      /\ imports c ≡ₚ flat_map imports (filter (fun x => path x = p) block).

(** What the merge loop makes of the clauses of one path when they are
    adjacent: the first one, holding the imports of all. *)
Definition merge_group (cs : list ImportClause) : list ImportClause :=
  match cs with
  | [] => []
  | c :: _ => [with_imports c (flat_map imports cs)]
  end.




(** No two neighbours have the same path. *)
Fixpoint distinct_neighbours (l : list ImportClause) : Prop :=
  match l with
  | [] => True
  | a :: l' =>
      match l' with
      | [] => True
      | b :: _ => path a <> path b
      end /\ distinct_neighbours l'
  end.

(** ** Lines of text *)

(** Whether a text contains a given character. *)
Fixpoint has_char (ch : ascii) (s : string) : bool :=
  match s with
  | EmptyString => false
  | String c s' => Ascii.eqb c ch || has_char ch s'
  end.

(** An import whose name and alias hold no newline. *)
Definition single_line_import (i : ScalaImport) : bool :=
  negb (has_char newline_char (name i))
  && match as_name i with
     | None => true
     | Some a => negb (has_char newline_char a)
     end.

(** A clause none of whose texts holds a newline. *)
Definition single_line_clause (c : ImportClause) : bool :=
  negb (has_char newline_char (indent c))
  && forallb (fun s => negb (has_char newline_char s)) (path_parts (path c))
  && forallb single_line_import (imports c).

(** A blank line is a newline met at the start of a line. *)
Fixpoint blank_line_scan (at_line_start : bool) (s : string) : bool :=
  match s with
  | EmptyString => false
  | String c s' =>
      if Ascii.eqb c newline_char
      then at_line_start || blank_line_scan true s'
      else blank_line_scan false s'
  end.

Definition has_blank_line (s : string) : bool := blank_line_scan true s.

(** Each line followed by a newline. *)
Fixpoint unlines (ls : list string) : string :=
  match ls with
  | [] => EmptyString
  | l :: ls' => l +:+ nl +:+ unlines ls'
  end.

(** A path none of whose segments holds a dot. *)
Definition dot_free_path (p : Path) : bool :=
  forallb (fun s => negb (has_char "." s)) (path_parts p).

(** ** The rewrite cursor and [apply_to_rewrite_cursor] *)

(** Modelled from the spec: what the import parser sees at a position of
    the text, an import statement (with its line end), a blank line, or a
    line of other text. *)
Inductive source_line :=
| ImportLine (clause : ImportClause)
| BlankLine
| OtherLine (text : string).

(** Modelled from the spec: the rewrite cursor, the text still to read and
    the text emitted so far. *)
Record rewrite_cursor := mkCursor {
  remaining : list source_line;
  emitted : string
}.

(** Modelled from the spec: [emit(text)] writes [text] to the output. *)
Definition emit (text : string) (cur : rewrite_cursor) : rewrite_cursor :=
  {| remaining := remaining cur; emitted := emitted cur +:+ text |}.

(** Modelled from the spec: [skip_blank_lines()] consumes the blank lines
    at the cursor and counts them. *)
Fixpoint skip_blank (ls : list source_line) : nat * list source_line :=
  match ls with
  | BlankLine :: ls' => let '(n, rest) := skip_blank ls' in (S n, rest)
  | _ => (O, ls)
  end.

Definition skip_blank_lines (cur : rewrite_cursor) : nat * rewrite_cursor :=
  let '(n, rest) := skip_blank (remaining cur) in
  (n, {| remaining := rest; emitted := emitted cur |}).

(** Modelled from the spec: [ScalaImportParser.match], an import statement
    exactly at the cursor or nothing, the cursor then staying in place. *)
Definition match_import (cur : rewrite_cursor)
  : option ImportClause * rewrite_cursor :=
  match remaining cur with
  | ImportLine c :: rest =>
      (Some c, {| remaining := rest; emitted := emitted cur |})
  | _ => (None, cur)
  end.

(** The text a line that is not an import passes through as. *)
Definition verbatim (l : source_line) : string :=
  match l with
  | ImportLine c => str c +:+ nl
  | BlankLine => nl
  | OtherLine t => t +:+ nl
  end.

(** Modelled from the spec: [ScalaImportParser.search], the next import
    statement ahead; the text skipped on the way is passed through. *)
Fixpoint search_lines (ls : list source_line) (out : string)
  : option ImportClause * list source_line * string :=
  match ls with
  | [] => (None, [], out)
  | ImportLine c :: rest => (Some c, rest, out)
  | l :: rest => search_lines rest (out +:+ verbatim l)
  end.

Definition search (cur : rewrite_cursor)
  : option ImportClause * rewrite_cursor :=
  let '(found, rest, out) := search_lines (remaining cur) (emitted cur) in
  (found, {| remaining := rest; emitted := out |}).

(** The inner loop of [apply_to_rewrite_cursor]: it gathers the clauses of
    one block and keeps the blank-line count read last. *)
Fixpoint collect_block (fuel : nat) (cur : rewrite_cursor)
    (import_clause : ImportClause) (import_block : list ImportClause)
  : option (list ImportClause * nat * rewrite_cursor) :=
  match fuel with
  | O => None
  | S fuel' =>
      let '(num_blank_lines, cur) := skip_blank_lines cur in
      let import_block := import_block ++ [import_clause] in
      match match_import cur with
      | (Some next_clause, cur) =>
          collect_block fuel' cur next_clause import_block
      | (None, cur) => Some (import_block, num_blank_lines, cur)
      end
  end.

(** The outer loop: one block per round. *)
Fixpoint rewrite_blocks (fancy : bool) (fuel : nat) (cur : rewrite_cursor)
    (import_clause : option ImportClause) : option rewrite_cursor :=
  match import_clause with
  | None => Some cur
  | Some first_clause =>
      match fuel with
      | O => None
      | S fuel' =>
          match collect_block (S (length (remaining cur))) cur
                  first_clause [] with
          | None => None
          | Some (import_block, num_blank_lines, cur) =>
              let processed_imports :=
                _process_import_block fancy import_block in
              let cur := emit processed_imports cur in
              let cur := emit (newlines num_blank_lines) cur in
              let '(next_clause, cur) := search cur in
              rewrite_blocks fancy fuel' cur next_clause
          end
      end
  end.

Definition apply_to_rewrite_cursor (fancy : bool) (cur : rewrite_cursor)
  : option rewrite_cursor :=
  let '(import_clause, cur') := search cur in
  rewrite_blocks fancy (S (length (remaining cur))) cur' import_clause.

(** The lines of a block after its first statement: each further statement
    with the blank lines that follow it. *)
Definition statement_lines (seg : ImportClause * nat) : list source_line :=
  ImportLine (fst seg) :: repeat BlankLine (snd seg).

(** The blank-line count read last in a block. *)
Definition last_blank_count (first : nat) (segs : list (ImportClause * nat))
  : nat :=
  List.last (map snd segs) first.

(** Lines among which search finds no import. *)
Definition no_import (l : source_line) : bool :=
  match l with
  | ImportLine _ => false
  | _ => true
  end.

(** What ends a block: the end of the text or a line of other text. *)
Definition ends_block (rest : list source_line) : bool :=
  match rest with
  | [] => true
  | OtherLine _ :: _ => true
  | _ => false
  end.

(** The text the skipped lines pass through as. *)
Fixpoint verbatim_lines (ls : list source_line) : string :=
  match ls with
  | [] => EmptyString
  | l :: ls' => verbatim l +:+ verbatim_lines ls'
  end.

(** The text does not go on with a blank line. *)
Definition no_blank_ahead (rest : list source_line) : bool :=
  match rest with
  | BlankLine :: _ => false
  | _ => true
  end.

(** ** Further notions for the block text and the whole text *)

(** The lines of a block, clause by clause: a blank line comes before a
    clause exactly when the policy is fancy, the clause before it is special
    and the clause itself is not. *)
Fixpoint spaced_lines (fancy after_special : bool) (l : list ImportClause)
  : list string :=
  match l with
  | [] => []
  | c :: l' =>
      (if fancy && after_special && negb (in_special_cases c)
       then [""] else [])
      ++ str (sort_imports c) :: spaced_lines fancy (in_special_cases c) l'
  end.

(** Lines without a blank line at the start, at the end or after another
    blank line; [prev_blank] also stands for the start of the lines. *)
Fixpoint tidy_from (prev_blank : bool) (lines : list string) : bool :=
  match lines with
  | [] => negb prev_blank
  | l :: ls =>
      if decide (l = "")
      then negb prev_blank && tidy_from true ls
      else tidy_from false ls
  end.

(** One import block of a text with the text that follows it: the first
    statement, the blank lines after it, the further statements with theirs,
    and the lines up to the next block. *)
Record block_text := mkBlockText {
  first_clause : ImportClause;
  first_blanks : nat;
  more_statements : list (ImportClause * nat);
  after_block : list source_line
}.

Definition block_clauses (b : block_text) : list ImportClause :=
  first_clause b :: map fst (more_statements b).

Fixpoint file_lines (bs : list block_text) : list source_line :=
  match bs with
  | [] => []
  | b :: bs' =>
      ImportLine (first_clause b)
        :: repeat BlankLine (first_blanks b)
           ++ flat_map statement_lines (more_statements b)
           ++ after_block b ++ file_lines bs'
  end.

(** The text the cursor loop writes for the blocks. *)
Fixpoint file_text (fancy : bool) (bs : list block_text) : string :=
  match bs with
  | [] => EmptyString
  | b :: bs' =>
      _process_import_block fancy (block_clauses b)
      +:+ newlines (last_blank_count (first_blanks b) (more_statements b))
      +:+ verbatim_lines (after_block b)
      +:+ file_text fancy bs'
  end.

(** The lines after a block hold no import and start with a line of other
    text; only the last block may have no line after it. *)
Fixpoint blocks_ok (bs : list block_text) : bool :=
  match bs with
  | [] => true
  | b :: bs' =>
      forallb no_import (after_block b)
      && ends_block (after_block b)
      && match bs', after_block b with
         | _ :: _, [] => false
         | _, _ => true
         end
      && blocks_ok bs'
  end.

(** The clauses of the import statements among some lines, in order. *)
Fixpoint line_clauses (ls : list source_line) : list ImportClause :=
  match ls with
  | [] => []
  | ImportLine c :: ls' => c :: line_clauses ls'
  | _ :: ls' => line_clauses ls'
  end.

(** Lines that are import statements or blank. *)
Definition block_line (l : source_line) : bool :=
  match l with
  | OtherLine _ => false
  | _ => true
  end.

(** ** Further notions for the blank lines after a block and for ties *)

(** The text of [n] blank lines: [n] empty lines, each with its line
    end. *)
Definition blank_lines_text (n : nat) : string :=
  unlines (repeat EmptyString n).

(** Whether a text holds no character but the given one. *)
Fixpoint only_char (ch : ascii) (s : string) : bool :=
  match s with
  | EmptyString => true
  | String c s' => Ascii.eqb c ch && only_char ch s'
  end.

(** The merge-target property in fancy mode: for every path the merged
    clauses of that path are the one clause that occurs first in the block,
    holding the imports of all clauses of that path in block order. *)
Definition first_clause_is_merge_target (block : list ImportClause) : Prop :=
  forall p,
    filter (fun x => path x = p)
      (merge_clauses (sorted cmp_clauses_fancy block))
    = merge_group (filter (fun x => path x = p) block).
(** ** Sample clauses *)

Definition simple_clause (top : string) (rest : list string) (n : string)
  : ImportClause :=
  {| indent := ""; path := mkPath top rest;
     imports := [ mkImport n None ] |}.

Definition braced_clause (top : string) (rest : list string)
    (ns : list string) : ImportClause :=
  {| indent := ""; path := mkPath top rest;
     imports := map (fun n => mkImport n None) ns |}.

(** ** The two examples of the specification *)

Example process_fancy_example :
  _process_import_block true
    [ simple_clause "scala" ["collection"; "immutable"] "List";
      braced_clause "java" ["util"] ["Map"; "Set"];
      simple_clause "com" ["foo"] "Bar" ]
  = "import java.util.{Map, Set}" +:+ nl
    +:+ "import scala.collection.immutable.List" +:+ nl +:+ nl
    +:+ "import com.foo.Bar" +:+ nl.
Proof. vm_compute. reflexivity. Qed.

Example process_strict_example :
  _process_import_block false
    [ simple_clause "a" ["b"] "C"; simple_clause "a" ["b"] "D" ]
  = "import a.b.{C, D}" +:+ nl.
Proof. vm_compute. reflexivity. Qed.

(** ** Facts about [cmp] *)

Lemma ascii_compare_Lt a b :
  Ascii.compare a b = Lt <-> (code_point a < code_point b)%N.
Proof. unfold Ascii.compare, code_point. apply N.compare_lt_iff. Qed.

Lemma ascii_compare_refl a : Ascii.compare a a = Eq.
Proof. unfold Ascii.compare. apply N.compare_refl. Qed.

Lemma compare_Lt_lex a b : String.compare a b = Lt <-> lex_lt a b.
Proof.
  split.
  - revert b. induction a as [|c a IH]; intros [|d b] H; simpl in H;
      try discriminate.
    + constructor.
    + destruct (Ascii.compare c d) eqn:E; try discriminate.
      * apply Ascii.compare_eq_iff in E. subst d.
        apply lex_lt_tail. auto.
      * apply lex_lt_head. apply ascii_compare_Lt. exact E.
  - induction 1 as [c s|c d s t Hlt|c s t _ IH]; simpl.
    + reflexivity.
    + apply ascii_compare_Lt in Hlt. rewrite Hlt. reflexivity.
    + rewrite ascii_compare_refl. exact IH.
Qed.

Lemma lex_lt_irrefl a : ~ lex_lt a a.
Proof.
  induction a as [|c a IH]; intros H; inversion H; subst; try lia; auto.
Qed.

Lemma lex_lt_trans a b c : lex_lt a b -> lex_lt b c -> lex_lt a c.
Proof.
  intros Hab. revert c.
  induction Hab as [x s|x y s t Hxy|x s t _ IH]; intros c Hbc;
    inversion Hbc; subst.
  - constructor.
  - constructor.
  - apply lex_lt_head. lia.
  - apply lex_lt_head. assumption.
  - apply lex_lt_head. assumption.
  - apply lex_lt_tail. auto.
Qed.

Lemma cmp_values a b : cmp a b = -1 \/ cmp a b = 0 \/ cmp a b = 1.
Proof. unfold cmp. destruct (String.compare a b); auto. Qed.

Lemma cmp_antisym a b : cmp b a = - cmp a b.
Proof.
  unfold cmp. rewrite (String.compare_antisym a b).
  destruct (String.compare b a); reflexivity.
Qed.

Lemma string_compare_refl a : String.compare a a = Eq.
Proof.
  induction a as [|c a IH]; simpl; [|rewrite ascii_compare_refl]; auto.
Qed.

Lemma cmp_eq_iff a b : cmp a b = 0 <-> a = b.
Proof.
  unfold cmp. split.
  - destruct (String.compare a b) eqn:E; try lia.
    intros _. apply String.compare_eq_iff. exact E.
  - intros ->. rewrite string_compare_refl. reflexivity.
Qed.

Lemma cmp_refl a : cmp a a = 0.
Proof. apply cmp_eq_iff. reflexivity. Qed.

Lemma cmp_lt_iff a b : cmp a b < 0 <-> lex_lt a b.
Proof.
  rewrite <- compare_Lt_lex. unfold cmp.
  destruct (String.compare a b); split; intros; congruence || lia.
Qed.

Lemma cmp_neg_iff a b : cmp a b = -1 <-> lex_lt a b.
Proof.
  rewrite <- cmp_lt_iff. destruct (cmp_values a b) as [H|[H|H]]; lia.
Qed.

Lemma cmp_pos_iff a b : cmp a b = 1 <-> lex_lt b a.
Proof.
  rewrite <- cmp_neg_iff, (cmp_antisym a b).
  destruct (cmp_values a b) as [H|[H|H]]; lia.
Qed.

Lemma cmp_lt_trans a b c : cmp a b < 0 -> cmp b c < 0 -> cmp a c < 0.
Proof. rewrite !cmp_lt_iff. apply lex_lt_trans. Qed.

Lemma cmp_le_trans a b c : cmp a b <= 0 -> cmp b c <= 0 -> cmp a c <= 0.
Proof.
  intros Hab Hbc.
  destruct (Z.eq_dec (cmp a b) 0) as [E|E].
  { apply cmp_eq_iff in E. subst b. exact Hbc. }
  destruct (Z.eq_dec (cmp b c) 0) as [E'|E'].
  { apply cmp_eq_iff in E'. subst c. exact Hab. }
  assert (cmp a c < 0); [|lia].
  apply cmp_lt_trans with b; lia.
Qed.

Lemma cmp_le_antisym a b : cmp a b <= 0 -> cmp b a <= 0 -> a = b.
Proof. intros H1 H2. apply cmp_eq_iff. rewrite (cmp_antisym a b) in H2. lia. Qed.


Lemma replace_map_chars s : replace "{" " " s = map_chars brace_to_space s.
Proof. induction s as [|c s IH]; simpl; [|rewrite IH]; reflexivity. Qed.

Lemma string_app_cons c (s t : string) : String c s +:+ t = String c (s +:+ t).
Proof. reflexivity. Qed.

Lemma string_app_assoc (a b c : string) : (a +:+ b) +:+ c = a +:+ (b +:+ c).
Proof.
  induction a as [|x a IH]; [reflexivity|].
  rewrite !string_app_cons, IH. reflexivity.
Qed.

Lemma string_app_nil_r (a : string) : a +:+ "" = a.
Proof.
  induction a as [|x a IH]; [reflexivity|].
  rewrite string_app_cons, IH. reflexivity.
Qed.

Lemma map_chars_app g s t :
  map_chars g (s +:+ t) = map_chars g s +:+ map_chars g t.
Proof.
  induction s as [|c s IH]; [reflexivity|].
  rewrite string_app_cons. simpl. rewrite IH. reflexivity.
Qed.

Lemma lex_lt_app_l p s t : lex_lt s t -> lex_lt (p +:+ s) (p +:+ t).
Proof.
  intros H. induction p as [|c p IH]; [exact H|].
  rewrite !string_app_cons. apply lex_lt_tail. exact IH.
Qed.

(** ** Facts about [sorted] *)

Section SortedFacts.
Context {A : Type} (f : A -> A -> Z).

Lemma insert_sorted_perm x l : insert_sorted f x l ≡ₚ x :: l.
Proof.
  induction l as [|y l IH]; simpl; [reflexivity|].
  destruct (f y x <? 0); [|reflexivity].
  rewrite IH. apply Permutation_swap.
Qed.

Lemma sorted_perm l : sorted f l ≡ₚ l.
Proof.
  induction l as [|x l IH]; simpl; [reflexivity|].
  rewrite insert_sorted_perm, IH. reflexivity.
Qed.

Lemma is_sorted_cons_inv x l :
  is_sorted f (x :: l) = true -> is_sorted f l = true.
Proof. simpl. destruct l; intros H; apply andb_true_iff in H; tauto. Qed.

(** A list already in order is returned unchanged. *)
Lemma sorted_fixed l : is_sorted f l = true -> sorted f l = l.
Proof.
  induction l as [|x l IH]; intros H; [reflexivity|].
  simpl. rewrite IH by (eapply is_sorted_cons_inv; exact H).
  destruct l as [|y l]; [reflexivity|].
  simpl in H. apply andb_true_iff in H as [H _].
  simpl. apply negb_true_iff in H. rewrite H. reflexivity.
Qed.

Hypothesis f_asym : forall x y, f x y < 0 -> ~ f y x < 0.

Lemma insert_sorted_is_sorted x l :
  is_sorted f l = true -> is_sorted f (insert_sorted f x l) = true.
Proof.
  induction l as [|y l IH]; intros H; [reflexivity|].
  simpl. destruct (f y x <? 0) eqn:E.
  - specialize (IH (is_sorted_cons_inv _ _ H)).
    change (is_sorted f (y :: insert_sorted f x l) = true).
    destruct l as [|z l].
    + simpl. rewrite andb_true_r. apply negb_true_iff, Z.ltb_ge.
      apply Z.ltb_lt in E. apply f_asym in E. lia.
    + simpl in H. apply andb_true_iff in H as [Hyz _].
      simpl in IH |- *. destruct (f z x <? 0) eqn:E'.
      * apply andb_true_iff. split; [exact Hyz|exact IH].
      * apply andb_true_iff. split; [|exact IH].
        apply negb_true_iff, Z.ltb_ge.
        apply Z.ltb_lt in E. apply f_asym in E. lia.
  - change (is_sorted f (x :: y :: l) = true).
    simpl in H |- *. rewrite E. simpl. exact H.
Qed.

Lemma sorted_is_sorted l : is_sorted f (sorted f l) = true.
Proof.
  induction l as [|x l IH]; [reflexivity|].
  simpl. apply insert_sorted_is_sorted. exact IH.
Qed.

Lemma sorted_idempotent l : sorted f (sorted f l) = sorted f l.
Proof. apply sorted_fixed, sorted_is_sorted. Qed.
End SortedFacts.

Section KeySorted.
Context {A : Type} (key : A -> string).

Lemma cmp_by_asym x y : cmp_by key x y < 0 -> ~ cmp_by key y x < 0.
Proof. unfold cmp_by. rewrite (cmp_antisym (key x) (key y)). lia. Qed.

Lemma is_sorted_strongly l :
  is_sorted (cmp_by key) l = true -> StronglySorted (key_le key) l.
Proof.
  intros H. apply Sorted_StronglySorted.
  { intros x y z. unfold key_le. apply cmp_le_trans. }
  induction l as [|x l IH]; [constructor|].
  constructor.
  - apply IH. eapply is_sorted_cons_inv. exact H.
  - destruct l as [|y l]; constructor.
    simpl in H. apply andb_true_iff in H as [H _].
    apply negb_true_iff, Z.ltb_ge in H. unfold cmp_by in H.
    unfold key_le. rewrite (cmp_antisym (key x) (key y)) in H. lia.
Qed.

Lemma sorted_strongly l :
  StronglySorted (key_le key) (sorted (cmp_by key) l).
Proof. apply is_sorted_strongly, sorted_is_sorted, cmp_by_asym. Qed.

(** Stability: the elements of one key keep their relative order. *)
Lemma insert_sorted_filter_key x l k :
  filter (fun c => key c = k) (insert_sorted (cmp_by key) x l)
  = filter (fun c => key c = k) (x :: l).
Proof.
  induction l as [|y l IH]; [reflexivity|].
  simpl. destruct (cmp_by key y x <? 0) eqn:E; [|reflexivity].
  rewrite filter_cons, IH, !filter_cons.
  apply Z.ltb_lt in E. unfold cmp_by in E.
  destruct (decide (key y = k)) as [Hy|Hy];
    destruct (decide (key x = k)) as [Hx|Hx]; try reflexivity.
  rewrite Hy, Hx, cmp_refl in E. lia.
Qed.

Lemma sorted_filter_key l k :
  filter (fun c => key c = k) (sorted (cmp_by key) l)
  = filter (fun c => key c = k) l.
Proof.
  induction l as [|x l IH]; [reflexivity|].
  simpl. rewrite insert_sorted_filter_key, !filter_cons, IH. reflexivity.
Qed.

Lemma filter_key_head (x : A) (l : list A) :
  filter (fun c => key c = key x) (x :: l)
  = x :: filter (fun c => key c = key x) l.
Proof. rewrite filter_cons_True by reflexivity. reflexivity. Qed.

Lemma filter_key_elem (x : A) (l : list A) k :
  x ∈ filter (fun c => key c = k) l -> x ∈ l.
Proof. intros H. apply list_elem_of_filter in H. tauto. Qed.

(** Whatever stable sort is used, the answer is the same: two lists in key
    order that hold, for every key, the same elements in the same order are
    equal. *)
Lemma stable_order_unique (l1 l2 : list A) :
  StronglySorted (key_le key) l1 ->
  StronglySorted (key_le key) l2 ->
  (forall k, filter (fun c => key c = k) l1
             = filter (fun c => key c = k) l2) ->
  l1 = l2.
Proof.
  intros H1. revert l2.
  induction H1 as [|x l1 Hs1 IH Hx]; intros l2 H2 Hf.
  - destruct l2 as [|y l2]; [reflexivity|].
    specialize (Hf (key y)). rewrite filter_key_head in Hf. discriminate Hf.
  - destruct H2 as [|y l2 Hs2 Hy].
    { specialize (Hf (key x)). rewrite filter_key_head in Hf.
      discriminate Hf. }
    assert (Hk : key x = key y).
    { apply cmp_le_antisym.
      - pose proof (Hf (key y)) as E. rewrite (filter_key_head y) in E.
        assert (Hin : y ∈ x :: l1).
        { eapply filter_key_elem. rewrite E. left. }
        apply elem_of_cons in Hin as [->|Hin]; [rewrite cmp_refl; lia|].
        apply (proj1 (Forall_forall _ _) Hx). exact Hin.
      - pose proof (Hf (key x)) as E. rewrite (filter_key_head x) in E.
        assert (Hin : x ∈ y :: l2).
        { eapply filter_key_elem. rewrite <- E. left. }
        apply elem_of_cons in Hin as [->|Hin]; [rewrite cmp_refl; lia|].
        apply (proj1 (Forall_forall _ _) Hy). exact Hin. }
    pose proof (Hf (key x)) as E.
    rewrite filter_key_head, Hk, filter_key_head in E.
    injection E as -> E.
    f_equal. apply IH; [exact Hs2|].
    intros k. specialize (Hf k). rewrite !filter_cons in Hf.
    destruct (decide (key y = k)); [injection Hf as Hf|]; exact Hf.
Qed.

(** So [sorted] is the stable sort by key. *)
Lemma sorted_stable_unique (l l' : list A) :
  StronglySorted (key_le key) l' ->
  (forall k, filter (fun c => key c = k) l'
             = filter (fun c => key c = k) l) ->
  l' = sorted (cmp_by key) l.
Proof.
  intros Hs Hf. apply stable_order_unique; [exact Hs|apply sorted_strongly|].
  intros k. rewrite sorted_filter_key. apply Hf.
Qed.
End KeySorted.

(** ** The merge loop *)

Lemma add_all_imports_eq current clause :
  add_all_imports current clause
  = with_imports current (imports current ++ imports clause).
Proof.
  unfold add_all_imports, with_imports.
  generalize (imports clause) as l. intros l. revert current.
  induction l as [|i l IH]; intros current; simpl.
  - rewrite app_nil_r. destruct current; reflexivity.
  - rewrite IH. simpl. rewrite <- app_assoc. destruct i; reflexivity.
Qed.

Lemma path_add_all_imports current clause :
  path (add_all_imports current clause) = path current.
Proof. rewrite add_all_imports_eq. reflexivity. Qed.

Lemma foldl_merge_clause done current l :
  merged_of_state (foldl merge_clause (done, Some current) l)
  = done ++ merge_from current l.
Proof.
  revert done current. induction l as [|c l IH]; intros done current.
  - reflexivity.
  - simpl. destruct (decide (path current = path c)).
    + apply IH.
    + rewrite IH, <- app_assoc. reflexivity.
Qed.

Lemma merge_clauses_cons c l : merge_clauses (c :: l) = merge_from c l.
Proof. unfold merge_clauses. simpl. apply (foldl_merge_clause [] c l). Qed.

Lemma with_imports_self c : with_imports c (imports c) = c.
Proof. destruct c; reflexivity. Qed.

(** ** Content preservation *)

Lemma import_triples_add_all current clause :
  path current = path clause ->
  import_triples (add_all_imports current clause)
  = import_triples current ++ import_triples clause.
Proof.
  intros Hp. rewrite add_all_imports_eq. unfold import_triples. simpl.
  rewrite map_app, Hp. reflexivity.
Qed.

Lemma block_triples_merge_from current l :
  block_triples (merge_from current l) = block_triples (current :: l).
Proof.
  revert current. induction l as [|c l IH]; intros current; [reflexivity|].
  simpl. destruct (decide (path current = path c)) as [Hp|Hp].
  - rewrite IH. unfold block_triples. simpl.
    rewrite import_triples_add_all by exact Hp.
    rewrite <- app_assoc. reflexivity.
  - unfold block_triples in *. simpl. rewrite IH. reflexivity.
Qed.

Lemma block_triples_merge_clauses l :
  block_triples (merge_clauses l) = block_triples l.
Proof.
  destruct l as [|c l]; [reflexivity|].
  rewrite merge_clauses_cons. apply block_triples_merge_from.
Qed.

Lemma import_triples_sort_imports c :
  import_triples (sort_imports c) ≡ₚ import_triples c.
Proof.
  unfold import_triples. simpl. apply Permutation_map, sorted_perm.
Qed.

Lemma block_triples_sort_imports l :
  block_triples (map sort_imports l) ≡ₚ block_triples l.
Proof.
  induction l as [|c l IH]; [reflexivity|].
  unfold block_triples in *. simpl.
  apply Permutation_app; [apply import_triples_sort_imports|exact IH].
Qed.

Lemma str_not_empty c : str c <> "".
Proof.
  unfold str, str_no_indent. destruct (indent c); discriminate.
Qed.

Lemma filter_nonblank_snoc lines c :
  filter (fun s => s <> "") (lines ++ [str c])
  = filter (fun s => s <> "") lines ++ [str c].
Proof.
  rewrite filter_app, (filter_cons_True _ (str c)) by apply str_not_empty.
  reflexivity.
Qed.

Lemma filter_nonblank_blank lines :
  filter (fun s => s <> "") (lines ++ [""])
  = filter (fun s => s <> "") lines.
Proof.
  rewrite filter_app, (filter_cons_False _ "")
    by (intros H; apply H; reflexivity).
  rewrite filter_nil, app_nil_r. reflexivity.
Qed.

(** The lines of a block that are not blank are the processed clauses,
    serialised in order. *)
Lemma foldl_emit_nonblank fancy lines flag l :
  filter (fun s => s <> "") (fst (foldl (emit_clause fancy) (lines, flag) l))
  = filter (fun s => s <> "") lines ++ map str (map sort_imports l).
Proof.
  revert lines flag. induction l as [|c l IH]; intros lines flag.
  - simpl. rewrite app_nil_r. reflexivity.
  - change (foldl (emit_clause fancy) (lines, flag) (c :: l))
      with (foldl (emit_clause fancy) (emit_clause fancy (lines, flag) c) l).
    destruct (emit_clause fancy (lines, flag) c) as [lines' flag'] eqn:E.
    rewrite IH. simpl map. unfold emit_clause in E.
    destruct fancy, (in_special_cases (sort_imports c)), flag; simpl in E;
      injection E as <- <-;
      rewrite ?filter_nonblank_snoc, ?filter_nonblank_blank, <- app_assoc;
      reflexivity.
Qed.

Lemma block_lines_nonblank fancy l :
  filter (fun s => s <> "") (block_lines fancy l)
  = map str (map sort_imports l).
Proof. unfold block_lines. rewrite foldl_emit_nonblank. reflexivity. Qed.

(** C3.  Content preservation: under either policy the
    [(path, name, alias)] triples of the processed clauses are a
    rearrangement of the triples of the input block, so no import is dropped,
    collapsed with a duplicate, or invented; the processed clauses are the
    clauses the lines of the returned text serialise. *)
Theorem process_preserves_triples (fancy : bool) (block : list ImportClause) :
  block_triples (processed_clauses fancy block) ≡ₚ block_triples block
  /\ filter (fun s => s <> "")
       (block_lines fancy (merge_clauses (sorted (select_cmp fancy) block)))
     = map str (processed_clauses fancy block)
  /\ _process_import_block fancy block
     = join nl (block_lines fancy
                  (merge_clauses (sorted (select_cmp fancy) block))) +:+ nl.
Proof.
  split; [|split; [apply block_lines_nonblank|reflexivity]].
  unfold processed_clauses.
  rewrite block_triples_sort_imports, block_triples_merge_clauses.
  unfold block_triples. apply Permutation_flat_map, sorted_perm.
Qed.

(** ** Merge correctness *)

Lemma paths_contiguous_tail a l :
  paths_contiguous (a :: l) = true -> paths_contiguous l = true.
Proof. simpl. destruct l; intros H; apply andb_true_iff in H; tauto. Qed.

Lemma paths_contiguous_head a b l :
  paths_contiguous (a :: b :: l) = true -> path a <> path b ->
  Forall (fun c => path c <> path a) (b :: l).
Proof.
  simpl. intros H Hne. apply andb_true_iff in H as [H _].
  apply bool_decide_eq_true in H as [H|H]; [contradiction|exact H].
Qed.

Lemma paths_contiguous_same_path a a' l :
  path a' = path a ->
  paths_contiguous (a :: l) = true -> paths_contiguous (a' :: l) = true.
Proof.
  intros Hp. simpl. destruct l as [|b l]; [reflexivity|].
  rewrite Hp. tauto.
Qed.

Lemma filter_path_none p l :
  Forall (fun c => path c <> p) l -> filter (fun x => path x = p) l = [].
Proof.
  induction 1 as [|c l Hc _ IH]; [reflexivity|].
  rewrite filter_cons_False by exact Hc. exact IH.
Qed.

Lemma merge_from_filter current l p :
  paths_contiguous (current :: l) = true ->
  filter (fun x => path x = p) (merge_from current l)
  = merge_group (filter (fun x => path x = p) (current :: l)).
Proof.
  revert current. induction l as [|c l IH]; intros current Hc.
  - simpl. rewrite !filter_cons, !filter_nil.
    destruct (decide (path current = p)); [|reflexivity].
    simpl. rewrite app_nil_r, with_imports_self. reflexivity.
  - simpl merge_from. destruct (decide (path current = path c)) as [Hp|Hp].
    + rewrite IH.
      2:{ apply paths_contiguous_same_path with c.
          - rewrite path_add_all_imports. exact Hp.
          - eapply paths_contiguous_tail. exact Hc. }
      rewrite !filter_cons, path_add_all_imports, <- Hp.
      destruct (decide (path current = p)); [|reflexivity].
      simpl. rewrite add_all_imports_eq. unfold with_imports. simpl.
      rewrite <- app_assoc. reflexivity.
    + pose proof (paths_contiguous_head _ _ _ Hc Hp) as Hnone.
      rewrite filter_cons, IH by (eapply paths_contiguous_tail; exact Hc).
      rewrite (filter_cons _ current).
      destruct (decide (path current = p)) as [E|E].
      * subst p. rewrite (filter_path_none _ _ Hnone). simpl.
        rewrite app_nil_r, with_imports_self. reflexivity.
      * reflexivity.
Qed.

Lemma merge_clauses_filter l p :
  paths_contiguous l = true ->
  filter (fun x => path x = p) (merge_clauses l)
  = merge_group (filter (fun x => path x = p) l).
Proof.
  destruct l as [|c l]; [reflexivity|].
  rewrite merge_clauses_cons. apply merge_from_filter.
Qed.

Lemma filter_path_sort_imports p l :
  filter (fun x => path x = p) (map sort_imports l)
  = map sort_imports (filter (fun x => path x = p) l).
Proof.
  induction l as [|c l IH]; [reflexivity|].
  simpl. rewrite !filter_cons, IH. simpl.
  destruct (decide (path c = p)); reflexivity.
Qed.

(** In fancy mode the sort leaves equal paths adjacent as soon as no two
    distinct paths share a sort key. *)
Lemma strongly_sorted_contiguous l :
  StronglySorted (key_le fancy_sort_key) l ->
  fancy_keys_injective l ->
  paths_contiguous l = true.
Proof.
  induction 1 as [|a l Hs IH Ha]; intros Hinj; [reflexivity|].
  assert (Htl : paths_contiguous l = true).
  { apply IH. intros x y Hx Hy. apply Hinj; right; assumption. }
  destruct l as [|b l]; [reflexivity|].
  change (bool_decide (path a = path b
            \/ Forall (fun c => path c <> path a) (b :: l))
          && paths_contiguous (b :: l) = true).
  rewrite Htl, andb_true_r. apply bool_decide_eq_true.
  destruct (decide (path a = path b)) as [E|E]; [left; exact E|right].
  apply Forall_forall. intros c Hc Hpc.
  apply E. apply Hinj; [left|right; left|].
  assert (Hab : key_le fancy_sort_key a b).
  { apply (proj1 (Forall_forall _ _) Ha). left. }
  assert (Hbc : key_le fancy_sort_key b c).
  { apply elem_of_cons in Hc as [->|Hc].
    - unfold key_le. rewrite cmp_refl. lia.
    - apply StronglySorted_inv in Hs as [_ Hb].
      apply (proj1 (Forall_forall _ _) Hb). exact Hc. }
  assert (Hca : fancy_sort_key c = fancy_sort_key a).
  { unfold fancy_sort_key. rewrite Hpc. reflexivity. }
  unfold key_le in *. rewrite Hca in Hbc.
  apply cmp_le_antisym; assumption.
Qed.

Lemma fancy_sorted_contiguous block :
  fancy_keys_injective block ->
  paths_contiguous (sorted cmp_clauses_fancy block) = true.
Proof.
  intros Hinj. apply strongly_sorted_contiguous.
  - apply (sorted_strongly fancy_sort_key).
  - intros a b Ha Hb. apply Hinj.
    + rewrite <- (sorted_perm cmp_clauses_fancy block). exact Ha.
    + rewrite <- (sorted_perm cmp_clauses_fancy block). exact Hb.
Qed.

Lemma contiguous_one_clause_per_path fancy block :
  paths_contiguous (sorted (select_cmp fancy) block) = true ->
  one_clause_per_path fancy block.
Proof.
  intros Hc p Hp. unfold processed_clauses.
  rewrite filter_path_sort_imports, merge_clauses_filter by exact Hc.
  set (S := sorted (select_cmp fancy) block) in *.
  assert (HS : filter (fun x => path x = p) S
               ≡ₚ filter (fun x => path x = p) block).
  { unfold S. rewrite sorted_perm. reflexivity. }
  destruct (filter (fun x => path x = p) S) as [|c cs] eqn:E.
  - exfalso. apply Permutation_nil in HS.
    apply list_elem_of_In, in_map_iff in Hp as [x [Hx Hin]].
    assert (Hf : x ∈ filter (fun x => path x = p) block).
    { apply list_elem_of_filter. split; [exact Hx|].
      apply list_elem_of_In. exact Hin. }
    rewrite HS in Hf. inversion Hf.
  - simpl. eexists. split; [reflexivity|]. simpl.
    rewrite sorted_perm.
    change (flat_map imports (c :: cs)
            ≡ₚ flat_map imports (filter (fun x => path x = p) block)).
    apply (Permutation_flat_map imports). exact HS.
Qed.

(** C1 (amended).  Merge correctness: whenever the sort under the active
    policy leaves the clauses of equal path next to each other -- which the
    fancy sort does as soon as no two distinct paths of the block share a
    sort key -- the processed clauses hold exactly one clause for each path
    of the block, and its imports are those of all input clauses of that
    path, duplicates kept. *)
Theorem merge_one_clause_per_path (fancy : bool) (block : list ImportClause) :
  paths_contiguous (sorted (select_cmp fancy) block) = true
  \/ (fancy = true /\ fancy_keys_injective block) ->
  one_clause_per_path fancy block.
Proof.
  intros [Hc|[-> Hinj]].
  - apply contiguous_one_clause_per_path. exact Hc.
  - apply contiguous_one_clause_per_path.
    apply fancy_sorted_contiguous. exact Hinj.
Qed.

Lemma merge_one_clause_per_path_witness :
  paths_contiguous
    (sorted (select_cmp false)
       [ simple_clause "a" ["b"] "D"; simple_clause "a" ["c"] "E";
         simple_clause "a" ["b"] "C" ]) = true
  /\ one_clause_per_path false
       [ simple_clause "a" ["b"] "D"; simple_clause "a" ["c"] "E";
         simple_clause "a" ["b"] "C" ].
Proof.
  assert (H : paths_contiguous
    (sorted (select_cmp false)
       [ simple_clause "a" ["b"] "D"; simple_clause "a" ["c"] "E";
         simple_clause "a" ["b"] "C" ]) = true) by (vm_compute; reflexivity).
  split; [exact H|].
  apply (merge_one_clause_per_path false). left. exact H.
Defined.

(** In fancy mode a top-level segment that imitates a fake sort key prefix
    breaks the adjacency: [java.x] and [aaa0java.x] share the sort key
    [aaa0java.x], the stable sort keeps the three clauses in their input
    order, and the path [java.x] keeps two clauses. *)
Lemma fancy_merge_counterexample :
  ~ one_clause_per_path true
      [ simple_clause "java" ["x"] "A"; simple_clause "aaa0java" ["x"] "B";
        simple_clause "java" ["x"] "C" ].
Proof.
  intros H. destruct (H (mkPath "java" ["x"])) as [c [Hc _]].
  - simpl. left.
  - vm_compute in Hc. discriminate Hc.
Qed.

Example fancy_merge_counterexample_text :
  _process_import_block true
    [ simple_clause "java" ["x"] "A"; simple_clause "aaa0java" ["x"] "B";
      simple_clause "java" ["x"] "C" ]
  = "import java.x.A" +:+ nl +:+ nl +:+ "import aaa0java.x.B" +:+ nl
    +:+ "import java.x.C" +:+ nl.
Proof. vm_compute. reflexivity. Qed.

(** The strict order is textual, so it can place a clause of another path
    between two clauses of one path: [import a.b.Ca.X] sorts between
    [import a.b.C] and [import a.b.D]. *)
Example strict_sort_splits_path :
  _process_import_block false
    [ simple_clause "a" ["b"] "C"; simple_clause "a" ["b"; "Ca"] "X";
      simple_clause "a" ["b"] "D" ]
  = "import a.b.C" +:+ nl +:+ "import a.b.Ca.X" +:+ nl
    +:+ "import a.b.D" +:+ nl.
Proof. vm_compute. reflexivity. Qed.

(** ** Fancy grouping *)

(** Case analysis on a top-level segment: one case for each special
    package and one for every other segment. *)
Ltac case_top t :=
  let E := fresh "E" in
  destruct (String.eqb_spec t "java") as [E|?];
  [try rewrite E
  |destruct (String.eqb_spec t "javax") as [E|?];
   [try rewrite E
   |destruct (String.eqb_spec t "scala") as [E|?];
    [try rewrite E
    |destruct (String.eqb_spec t "scalax") as [E|?];
     [try rewrite E|]]]].

Lemma special_cases_get top :
  default "" (_special_cases !! top) = rank_prefix top.
Proof.
  unfold _special_cases, rank_prefix.
  case_top top; try reflexivity.
  rewrite !lookup_insert_ne, lookup_singleton_ne by congruence. reflexivity.
Qed.

Lemma in_special_cases_top c :
  in_special_cases c = is_special_top (top_level (path c)).
Proof.
  unfold in_special_cases, is_special_top, get_top_level, _special_cases.
  case_top (top_level (path c)); try reflexivity.
  simpl. apply bool_decide_eq_false. intros [v Hv].
  rewrite !lookup_insert_ne, lookup_singleton_ne in Hv by congruence.
  discriminate Hv.
Qed.


Lemma fancy_sort_key_rank c :
  fancy_sort_key c
  = rank_prefix (top_level (path c)) +:+ path_string (path c).
Proof. unfold fancy_sort_key. rewrite special_cases_get. reflexivity. Qed.









Lemma in_special_cases_sort_imports c :
  in_special_cases (sort_imports c) = in_special_cases c.
Proof. reflexivity. Qed.








Example fancy_grouping_counterexample_text :
  _process_import_block true
    [ simple_clause "java" ["util"] "Map"; simple_clause "aaa" ["b"] "C" ]
  = "import aaa.b.C" +:+ nl +:+ "import java.util.Map" +:+ nl.
Proof. vm_compute. reflexivity. Qed.

(** The same holds for every top-level segment below [aaa0], such as
    [_root_]. *)
Example fancy_root_prefix_text :
  _process_import_block true
    [ simple_clause "java" ["util"] "Map"; simple_clause "_root_" ["b"] "C" ]
  = "import _root_.b.C" +:+ nl +:+ "import java.util.Map" +:+ nl.
Proof. vm_compute. reflexivity. Qed.

(** With a top-level segment that falls between two fake prefixes the
    block even gets two blank lines. *)
Example fancy_two_blank_lines :
  _process_import_block true
    [ simple_clause "java" ["a"] "X"; simple_clause "aaa0z" ["b"] "Y";
      simple_clause "javax" ["c"] "Z"; simple_clause "zzz" ["d"] "W" ]
  = "import java.a.X" +:+ nl +:+ nl +:+ "import aaa0z.b.Y" +:+ nl
    +:+ "import javax.c.Z" +:+ nl +:+ nl +:+ "import zzz.d.W" +:+ nl.
Proof. vm_compute. reflexivity. Qed.

(** ** The comparators *)

Lemma string_for_cmp_canonical c : string_for_cmp c = canonical_form c.
Proof. apply replace_map_chars. Qed.

(** C5.  The strict comparator compares the canonical textual forms of the
    two clauses, the statement without indentation with every ['{'] turned
    into a space, in lexicographic code-point order: it answers [-1] when the
    left form comes first, [0] when the forms are equal and [1] when the
    right form comes first; the indentation plays no part. *)
Theorem cmp_clauses_lexicographic (left right : ImportClause) :
  (cmp_clauses left right = -1
     <-> lex_lt (canonical_form left) (canonical_form right))
  /\ (cmp_clauses left right = 0
     <-> canonical_form left = canonical_form right)
  /\ (cmp_clauses left right = 1
     <-> lex_lt (canonical_form right) (canonical_form left))
  /\ (forall ind,
        cmp_clauses (mkClause ind (path left) (imports left)) right
        = cmp_clauses left right).
Proof.
  unfold cmp_clauses. rewrite <- !string_for_cmp_canonical.
  split; [apply cmp_neg_iff|].
  split; [apply cmp_eq_iff|].
  split; [apply cmp_pos_iff|].
  reflexivity.
Qed.

Lemma is_letter_not_brace a : is_letter a = true -> brace_to_space a = a.
Proof.
  intros H. unfold brace_to_space.
  destruct (Ascii.eqb_spec a "{") as [->|_]; [|reflexivity].
  vm_compute in H. discriminate H.
Qed.

Lemma is_letter_above_space a :
  is_letter a = true -> (code_point " " < code_point a)%N.
Proof.
  unfold is_letter. intros H.
  change (code_point " ") with 32%N.
  apply orb_true_iff in H as [H|H]; apply andb_true_iff in H as [H _];
    apply N.leb_le in H; lia.
Qed.

(** C6.  Strict-order property: when the statements of two clauses agree up
    to a point where one has ['{'] and the other a letter, the strict
    comparator puts the braced clause strictly first, and so does the
    sort. *)
Theorem brace_sorts_before_letter
    (braced other : ImportClause) (prefix s t : string) (a : ascii) :
  str_no_indent braced = prefix +:+ String "{" s ->
  str_no_indent other = prefix +:+ String a t ->
  is_letter a = true ->
  cmp_clauses braced other = -1
  /\ cmp_clauses other braced = 1
  /\ sorted cmp_clauses [other; braced] = [braced; other]
  /\ sorted cmp_clauses [braced; other] = [braced; other].
Proof.
  intros Hb Ho Ha.
  assert (H : cmp_clauses braced other = -1).
  { unfold cmp_clauses. apply cmp_neg_iff.
    rewrite !string_for_cmp_canonical. unfold canonical_form.
    rewrite Hb, Ho, !map_chars_app. apply lex_lt_app_l. simpl.
    apply lex_lt_head. rewrite (is_letter_not_brace a Ha).
    apply is_letter_above_space. exact Ha. }
  assert (H' : cmp_clauses other braced = 1).
  { unfold cmp_clauses in *.
    rewrite (cmp_antisym (string_for_cmp braced) (string_for_cmp other)), H.
    reflexivity. }
  repeat split; try assumption; simpl; rewrite ?H, ?H'; reflexivity.
Qed.

Lemma brace_sorts_before_letter_witness :
  cmp_clauses (braced_clause "foo" ["bar"] ["Bar1"; "Bar2"])
              (simple_clause "foo" ["bar"; "Baz"] "_") = -1
  /\ cmp_clauses (simple_clause "foo" ["bar"; "Baz"] "_")
                 (braced_clause "foo" ["bar"] ["Bar1"; "Bar2"]) = 1
  /\ sorted cmp_clauses
       [ simple_clause "foo" ["bar"; "Baz"] "_";
         braced_clause "foo" ["bar"] ["Bar1"; "Bar2"] ]
     = [ braced_clause "foo" ["bar"] ["Bar1"; "Bar2"];
         simple_clause "foo" ["bar"; "Baz"] "_" ]
  /\ sorted cmp_clauses
       [ braced_clause "foo" ["bar"] ["Bar1"; "Bar2"];
         simple_clause "foo" ["bar"; "Baz"] "_" ]
     = [ braced_clause "foo" ["bar"] ["Bar1"; "Bar2"];
         simple_clause "foo" ["bar"; "Baz"] "_" ].
Proof.
  apply (brace_sorts_before_letter
           (braced_clause "foo" ["bar"] ["Bar1"; "Bar2"])
           (simple_clause "foo" ["bar"; "Baz"] "_")
           "import foo.bar." "Bar1, Bar2}" "az._" "B");
    reflexivity.
Defined.

(** C7.  The fancy comparator is the lexicographic comparison of
    [rank_prefix + dotted path], where the rank prefix of the top-level
    segment is [aaa0] for [java], [aaa1] for [javax], [aaa2] for [scala],
    [aaa3] for [scalax] and empty for every other segment. *)
Theorem cmp_clauses_fancy_rank_prefix (left right : ImportClause) :
  cmp_clauses_fancy left right
  = cmp (rank_prefix (top_level (path left)) +:+ path_string (path left))
        (rank_prefix (top_level (path right)) +:+ path_string (path right))
  /\ (cmp_clauses_fancy left right = -1
      <-> lex_lt
            (rank_prefix (top_level (path left)) +:+ path_string (path left))
            (rank_prefix (top_level (path right))
               +:+ path_string (path right))).
Proof.
  unfold cmp_clauses_fancy. rewrite !fancy_sort_key_rank.
  split; [reflexivity|apply cmp_neg_iff].
Qed.

(** ** Idempotence *)

Lemma cmp_imports_asym x y : cmp_imports x y < 0 -> ~ cmp_imports y x < 0.
Proof.
  unfold cmp_imports.
  destruct (String.eqb (name x) "_"), (String.eqb (name y) "_"); try lia.
  rewrite (cmp_antisym (name x) (name y)). lia.
Qed.

Lemma sort_imports_idempotent c :
  sort_imports (sort_imports c) = sort_imports c.
Proof.
  unfold sort_imports. simpl.
  rewrite (sorted_idempotent cmp_imports cmp_imports_asym). reflexivity.
Qed.

Lemma map_sort_imports_idempotent l :
  map sort_imports (map sort_imports l) = map sort_imports l.
Proof.
  induction l as [|c l IH]; [reflexivity|].
  simpl. rewrite sort_imports_idempotent, IH. reflexivity.
Qed.

Lemma fancy_sort_key_path a b :
  path a = path b -> fancy_sort_key a = fancy_sort_key b.
Proof. unfold fancy_sort_key. intros ->. reflexivity. Qed.

Lemma merge_from_head current l :
  exists c rest, merge_from current l = c :: rest /\ path c = path current.
Proof.
  revert current. induction l as [|x l IH]; intros current.
  - exists current, []. split; reflexivity.
  - simpl. destruct (decide (path current = path x)).
    + destruct (IH (add_all_imports current x)) as (c & rest & E & Hp).
      exists c, rest. split; [exact E|].
      rewrite Hp. apply path_add_all_imports.
    + exists current, (merge_from x l). split; reflexivity.
Qed.

Lemma merge_from_paths current l x :
  x ∈ merge_from current l ->
  exists y, y ∈ current :: l /\ path y = path x.
Proof.
  revert current. induction l as [|c l IH]; intros current Hx.
  - exists current. apply list_elem_of_singleton in Hx as ->.
    split; [left|reflexivity].
  - simpl in Hx. destruct (decide (path current = path c)) as [Hp|Hp].
    + destruct (IH _ Hx) as (y & Hy & Hyx).
      apply elem_of_cons in Hy as [->|Hy].
      * exists current. split; [left|].
        rewrite <- Hyx. symmetry. apply path_add_all_imports.
      * exists y. split; [right; right; exact Hy|exact Hyx].
    + apply elem_of_cons in Hx as [->|Hx].
      * exists current. split; [left|reflexivity].
      * destruct (IH _ Hx) as (y & Hy & Hyx).
        exists y. split; [right; exact Hy|exact Hyx].
Qed.

Lemma merge_from_distinct current l :
  distinct_neighbours (merge_from current l).
Proof.
  revert current. induction l as [|c l IH]; intros current.
  - simpl. auto.
  - simpl. destruct (decide (path current = path c)) as [Hp|Hp];
      [apply IH|].
    destruct (merge_from_head c l) as (c' & rest & E & Hc').
    specialize (IH c). rewrite E in IH |- *.
    split; [rewrite Hc'; exact Hp|exact IH].
Qed.

Lemma merge_clauses_distinct l : distinct_neighbours (merge_clauses l).
Proof.
  destruct l as [|c l]; [exact I|].
  rewrite merge_clauses_cons. apply merge_from_distinct.
Qed.

Lemma distinct_neighbours_sort_imports l :
  distinct_neighbours l -> distinct_neighbours (map sort_imports l).
Proof.
  induction l as [|a l IH]; [auto|].
  intros [Ha Hl]. split; [|apply IH; exact Hl].
  destruct l; [exact I|exact Ha].
Qed.

(** The merge loop changes nothing when no two neighbours share a path. *)
Lemma merge_from_fixed current l :
  distinct_neighbours (current :: l) -> merge_from current l = current :: l.
Proof.
  revert current. induction l as [|c l IH]; intros current [Hp H];
    [reflexivity|].
  simpl. destruct (decide (path current = path c)); [contradiction|].
  rewrite IH by exact H. reflexivity.
Qed.

Lemma merge_clauses_fixed l : distinct_neighbours l -> merge_clauses l = l.
Proof.
  destruct l as [|c l]; [reflexivity|].
  rewrite merge_clauses_cons. apply merge_from_fixed.
Qed.

Lemma merge_from_strongly current l :
  StronglySorted (key_le fancy_sort_key) (current :: l) ->
  StronglySorted (key_le fancy_sort_key) (merge_from current l).
Proof.
  revert current. induction l as [|c l IH]; intros current H; [exact H|].
  apply StronglySorted_inv in H as [Hcl Hcur].
  simpl. destruct (decide (path current = path c)) as [Hp|Hp].
  - apply IH. apply StronglySorted_inv in Hcl as [Hl Hc].
    constructor; [exact Hl|].
    apply Forall_cons in Hcur as [_ Hcur].
    eapply Forall_impl; [exact Hcur|].
    intros y Hy. unfold key_le in *.
    rewrite (fancy_sort_key_path (add_all_imports current c) current);
      [exact Hy|apply path_add_all_imports].
  - constructor; [apply IH; exact Hcl|].
    apply Forall_forall. intros x Hx.
    destruct (merge_from_paths _ _ _ Hx) as (y & Hy & Hyx).
    unfold key_le. rewrite <- (fancy_sort_key_path y x Hyx).
    apply (proj1 (Forall_forall _ _) Hcur). exact Hy.
Qed.

Lemma strongly_is_sorted {A : Type} (key : A -> string) l :
  StronglySorted (key_le key) l -> is_sorted (cmp_by key) l = true.
Proof.
  induction 1 as [|x l Hs IH Hx]; [reflexivity|].
  simpl. rewrite IH, andb_true_r.
  destruct l as [|y l]; [reflexivity|].
  apply Forall_cons in Hx as [Hxy _].
  apply negb_true_iff, Z.ltb_ge. unfold key_le in Hxy. unfold cmp_by.
  rewrite (cmp_antisym (key x) (key y)). lia.
Qed.

Lemma strongly_sort_imports l :
  StronglySorted (key_le fancy_sort_key) l ->
  StronglySorted (key_le fancy_sort_key) (map sort_imports l).
Proof.
  induction 1 as [|x l Hs IH Hx]; simpl; constructor; [exact IH|].
  apply Forall_forall. intros y Hy.
  apply list_elem_of_In, in_map_iff in Hy as (z & <- & Hz).
  change (key_le fancy_sort_key x z).
  apply (proj1 (Forall_forall _ _) Hx). apply list_elem_of_In. exact Hz.
Qed.

(** In fancy mode the processed clauses are always in fancy order. *)
Lemma fancy_processed_is_sorted block :
  is_sorted cmp_clauses_fancy (processed_clauses true block) = true.
Proof.
  apply (strongly_is_sorted fancy_sort_key).
  unfold processed_clauses. apply strongly_sort_imports.
  simpl select_cmp.
  pose proof (sorted_strongly fancy_sort_key block) as H.
  change (cmp_by fancy_sort_key) with cmp_clauses_fancy in H.
  destruct (sorted cmp_clauses_fancy block) as [|c l]; [constructor|].
  rewrite merge_clauses_cons. apply merge_from_strongly. exact H.
Qed.

Lemma emit_clause_sort_imports fancy st c :
  emit_clause fancy st (sort_imports c) = emit_clause fancy st c.
Proof. unfold emit_clause. rewrite sort_imports_idempotent. reflexivity. Qed.

Lemma foldl_emit_sort_imports fancy st l :
  foldl (emit_clause fancy) st (map sort_imports l)
  = foldl (emit_clause fancy) st l.
Proof.
  revert st. induction l as [|c l IH]; intros st; [reflexivity|].
  simpl. rewrite emit_clause_sort_imports. apply IH.
Qed.

Lemma block_lines_sort_imports fancy l :
  block_lines fancy (map sort_imports l) = block_lines fancy l.
Proof. unfold block_lines. rewrite foldl_emit_sort_imports. reflexivity. Qed.

(** Processing clauses that are already processed and in order changes
    nothing. *)
Lemma processed_fixed fancy block :
  is_sorted (select_cmp fancy) (processed_clauses fancy block) = true ->
  processed_clauses fancy (processed_clauses fancy block)
  = processed_clauses fancy block
  /\ _process_import_block fancy (processed_clauses fancy block)
     = _process_import_block fancy block.
Proof.
  intros Hs.
  assert (Hm : merge_clauses (sorted (select_cmp fancy)
                                (processed_clauses fancy block))
               = processed_clauses fancy block).
  { rewrite (sorted_fixed _ _ Hs). apply merge_clauses_fixed.
    apply distinct_neighbours_sort_imports, merge_clauses_distinct. }
  split.
  - unfold processed_clauses at 1. rewrite Hm.
    apply map_sort_imports_idempotent.
  - unfold _process_import_block at 1. cbv zeta. rewrite Hm.
    unfold processed_clauses. rewrite block_lines_sort_imports.
    reflexivity.
Qed.

(** In fancy mode, and in strict mode whenever the processed clauses are
    themselves in strict order, processing the processed clauses again
    returns the same clauses and the same text. *)
Lemma process_idempotent (fancy : bool) (block : list ImportClause) :
  fancy = true
  \/ is_sorted (select_cmp fancy) (processed_clauses fancy block) = true ->
  processed_clauses fancy (processed_clauses fancy block)
  = processed_clauses fancy block
  /\ _process_import_block fancy (processed_clauses fancy block)
     = _process_import_block fancy block.
Proof.
  intros [->|Hs]; apply processed_fixed; [|exact Hs].
  apply fancy_processed_is_sorted.
Qed.

Example process_idempotent_strict_sample :
  _process_import_block false
    (processed_clauses false
       [ simple_clause "a" ["b"] "D"; simple_clause "a" ["c"] "E";
         simple_clause "a" ["b"] "C" ])
  = _process_import_block false
      [ simple_clause "a" ["b"] "D"; simple_clause "a" ["c"] "E";
        simple_clause "a" ["b"] "C" ].
Proof. apply (process_idempotent false). right. vm_compute. reflexivity. Qed.

(** C4.  Idempotence fails in strict mode: the block [import a.b.A.X],
    [import a.b.C], [import a.b.D] is sorted before it is merged, so the
    merged clause [import a.b.{C, D}] stays behind [import a.b.A.X] although
    the strict comparator puts it first; processing the clauses of that
    output again moves it to the front, so the second text differs from the
    first. *)
Theorem strict_idempotence_fails :
  _process_import_block false
    [ simple_clause "a" ["b"; "A"] "X"; simple_clause "a" ["b"] "C";
      simple_clause "a" ["b"] "D" ]
  = "import a.b.A.X" +:+ nl +:+ "import a.b.{C, D}" +:+ nl
  /\ processed_clauses false
       [ simple_clause "a" ["b"; "A"] "X"; simple_clause "a" ["b"] "C";
         simple_clause "a" ["b"] "D" ]
     = [ simple_clause "a" ["b"; "A"] "X";
         braced_clause "a" ["b"] ["C"; "D"] ]
  /\ cmp_clauses (braced_clause "a" ["b"] ["C"; "D"])
                 (simple_clause "a" ["b"; "A"] "X") = -1
  /\ _process_import_block false
       (processed_clauses false
          [ simple_clause "a" ["b"; "A"] "X"; simple_clause "a" ["b"] "C";
            simple_clause "a" ["b"] "D" ])
     = "import a.b.{C, D}" +:+ nl +:+ "import a.b.A.X" +:+ nl
  /\ _process_import_block false
       (processed_clauses false
          [ simple_clause "a" ["b"; "A"] "X"; simple_clause "a" ["b"] "C";
            simple_clause "a" ["b"] "D" ])
     <> _process_import_block false
          [ simple_clause "a" ["b"; "A"] "X"; simple_clause "a" ["b"] "C";
            simple_clause "a" ["b"] "D" ].
Proof.
  repeat split; try (vm_compute; reflexivity).
  vm_compute. discriminate.
Qed.

(** ** The text of a strict block *)

Lemma foldl_emit_strict lines flag l :
  foldl (emit_clause false) (lines, flag) l
  = (lines ++ map str (map sort_imports l), flag).
Proof.
  revert lines. induction l as [|c l IH]; intros lines.
  - simpl. rewrite app_nil_r. reflexivity.
  - simpl. rewrite IH, <- app_assoc. reflexivity.
Qed.

Lemma block_lines_strict l :
  block_lines false l = map str (map sort_imports l).
Proof. unfold block_lines. rewrite foldl_emit_strict. reflexivity. Qed.

Lemma join_unlines l ls : join nl (l :: ls) +:+ nl = unlines (l :: ls).
Proof.
  revert l. induction ls as [|l' ls IH]; intros l.
  - simpl. reflexivity.
  - change (join nl (l :: l' :: ls)) with (l +:+ nl +:+ join nl (l' :: ls)).
    rewrite !string_app_assoc, IH. reflexivity.
Qed.

Lemma has_char_app ch a b :
  has_char ch (a +:+ b) = has_char ch a || has_char ch b.
Proof.
  induction a as [|c a IH]; [reflexivity|].
  rewrite string_app_cons. simpl. rewrite IH, orb_assoc. reflexivity.
Qed.

Lemma has_char_join ch sep ls :
  has_char ch sep = false ->
  forallb (fun s => negb (has_char ch s)) ls = true ->
  has_char ch (join sep ls) = false.
Proof.
  intros Hsep. induction ls as [|l ls IH]; intros H; [reflexivity|].
  simpl in H. apply andb_true_iff in H as [Hl H].
  apply negb_true_iff in Hl.
  destruct ls as [|l' ls]; [exact Hl|].
  change (join sep (l :: l' :: ls)) with (l +:+ sep +:+ join sep (l' :: ls)).
  rewrite !has_char_app, Hl, Hsep, IH by exact H. reflexivity.
Qed.

Lemma has_newline_import_token i :
  single_line_import i = true ->
  has_char newline_char (import_token i) = false.
Proof.
  unfold single_line_import, import_token. intros H.
  apply andb_true_iff in H as [Hn Ha]. apply negb_true_iff in Hn.
  destruct (as_name i) as [a|]; [|exact Hn].
  apply negb_true_iff in Ha.
  rewrite !has_char_app, Hn, Ha. reflexivity.
Qed.

Lemma has_newline_selector imps :
  forallb single_line_import imps = true ->
  has_char newline_char (selector imps) = false.
Proof.
  intros H.
  assert (Hb : has_char newline_char
                 ("{" +:+ join ", " (map import_token imps) +:+ "}") = false).
  { rewrite !has_char_app. rewrite has_char_join; [reflexivity|reflexivity|].
    clear -H. induction imps as [|i imps IH]; [reflexivity|].
    simpl in H |- *. apply andb_true_iff in H as [Hi H].
    rewrite (has_newline_import_token i Hi), IH by exact H. reflexivity. }
  unfold selector. destruct imps as [|[n [a|]] [|j imps]]; try exact Hb.
  simpl in H. rewrite andb_true_r in H.
  apply andb_true_iff in H as [H _]. apply negb_true_iff in H. exact H.
Qed.

Lemma has_newline_str c :
  single_line_clause c = true -> has_char newline_char (str c) = false.
Proof.
  unfold single_line_clause, str, str_no_indent, path_string. intros H.
  apply andb_true_iff in H as [H Hi]. apply andb_true_iff in H as [Hind Hp].
  apply negb_true_iff in Hind.
  rewrite !has_char_app, Hind, has_newline_selector by exact Hi.
  rewrite has_char_join; [reflexivity|reflexivity|exact Hp].
Qed.

Lemma blank_line_scan_line flag l rest :
  has_char newline_char l = false ->
  blank_line_scan flag (l +:+ nl +:+ rest)
  = match l with
    | EmptyString => flag || blank_line_scan true rest
    | String _ _ => blank_line_scan true rest
    end.
Proof.
  intros Hl. destruct l as [|c l].
  - reflexivity.
  - rewrite string_app_cons. simpl in Hl |- *.
    apply orb_false_iff in Hl as [Hc Hl]. rewrite Hc.
    clear c Hc. induction l as [|c l IH].
    + reflexivity.
    + rewrite string_app_cons. simpl in Hl |- *.
      apply orb_false_iff in Hl as [Hc Hl]. rewrite Hc. apply IH. exact Hl.
Qed.

Lemma unlines_no_blank_line ls :
  Forall (fun l => l <> "" /\ has_char newline_char l = false) ls ->
  has_blank_line (unlines ls) = false.
Proof.
  unfold has_blank_line. induction 1 as [|l ls [Hne Hl] _ IH]; [reflexivity|].
  simpl. rewrite blank_line_scan_line by exact Hl.
  destruct l; [contradiction|exact IH].
Qed.

Lemma single_line_sorted {A : Type} (f : A -> A -> Z) (P : A -> bool) l :
  forallb P l = true -> forallb P (sorted f l) = true.
Proof.
  rewrite !forallb_forall. intros H x Hx. apply H.
  apply list_elem_of_In. rewrite <- (sorted_perm f l).
  apply list_elem_of_In. exact Hx.
Qed.

Lemma single_line_add_all current clause :
  single_line_clause current = true ->
  single_line_clause clause = true ->
  single_line_clause (add_all_imports current clause) = true.
Proof.
  rewrite add_all_imports_eq. unfold single_line_clause. simpl.
  intros H1 H2.
  apply andb_true_iff in H1 as [H1 Hi1].
  apply andb_true_iff in H2 as [_ Hi2].
  rewrite H1, forallb_app, Hi1, Hi2. reflexivity.
Qed.

Lemma single_line_merge_from current l :
  forallb single_line_clause (current :: l) = true ->
  forallb single_line_clause (merge_from current l) = true.
Proof.
  revert current. induction l as [|c l IH]; intros current H; [exact H|].
  simpl in H. apply andb_true_iff in H as [Hcur H]. pose proof H as Hcl.
  apply andb_true_iff in H as [Hc Hl].
  simpl merge_from. destruct (decide (path current = path c)).
  - apply IH. simpl. rewrite single_line_add_all, Hl by assumption.
    reflexivity.
  - simpl. rewrite Hcur. apply IH. exact Hcl.
Qed.

Lemma single_line_sort_imports c :
  single_line_clause c = true -> single_line_clause (sort_imports c) = true.
Proof.
  unfold single_line_clause. simpl. intros H.
  apply andb_true_iff in H as [H Hi]. rewrite H. simpl.
  apply single_line_sorted. exact Hi.
Qed.

Lemma single_line_processed fancy block :
  forallb single_line_clause block = true ->
  Forall (fun c => single_line_clause c = true)
         (processed_clauses fancy block).
Proof.
  intros H. unfold processed_clauses.
  apply (single_line_sorted (select_cmp fancy)) in H.
  assert (Hm : forallb single_line_clause
                 (merge_clauses (sorted (select_cmp fancy) block)) = true).
  { destruct (sorted (select_cmp fancy) block) as [|c l]; [reflexivity|].
    rewrite merge_clauses_cons. apply single_line_merge_from. exact H. }
  apply Forall_forall. intros x Hx.
  apply list_elem_of_In, in_map_iff in Hx as (y & <- & Hy).
  apply single_line_sort_imports.
  apply (proj1 (forallb_forall _ _) Hm). exact Hy.
Qed.

Lemma processed_clauses_not_nil fancy block :
  block <> [] -> processed_clauses fancy block <> [].
Proof.
  intros Hne Hp. apply Hne. clear Hne.
  unfold processed_clauses in Hp. apply map_eq_nil in Hp.
  pose proof (sorted_perm (select_cmp fancy) block) as Hs.
  destruct (sorted (select_cmp fancy) block) as [|c l].
  - apply Permutation_nil in Hs. exact Hs.
  - rewrite merge_clauses_cons in Hp.
    destruct (merge_from_head c l) as (c' & rest & E & _).
    rewrite E in Hp. discriminate Hp.
Qed.

(** C9.  In strict mode the processed text of a block is the serialised
    clauses joined by single newlines and ended by one newline; for a block
    of at least one clause, whose texts hold no newline, that is one line per
    clause and no blank line. *)
Theorem strict_text_no_blank_line (block : list ImportClause) :
  block <> [] ->
  forallb single_line_clause block = true ->
  _process_import_block false block
  = join nl (map str (processed_clauses false block)) +:+ nl
  /\ _process_import_block false block
     = unlines (map str (processed_clauses false block))
  /\ Forall (fun l => l <> "" /\ has_char newline_char l = false)
            (map str (processed_clauses false block))
  /\ has_blank_line (_process_import_block false block) = false.
Proof.
  intros Hne Hsl.
  assert (E : _process_import_block false block
              = join nl (map str (processed_clauses false block)) +:+ nl).
  { unfold _process_import_block, processed_clauses. cbv zeta.
    rewrite block_lines_strict. reflexivity. }
  assert (Hl : Forall (fun l => l <> "" /\ has_char newline_char l = false)
                 (map str (processed_clauses false block))).
  { pose proof (single_line_processed false block Hsl) as H. clear E.
    induction H as [|c l Hc _ IH]; simpl; constructor; [|exact IH].
    split; [apply str_not_empty|apply has_newline_str; exact Hc]. }
  assert (U : _process_import_block false block
              = unlines (map str (processed_clauses false block))).
  { rewrite E.
    pose proof (processed_clauses_not_nil false block Hne) as Hp.
    destruct (processed_clauses false block) as [|c l]; [contradiction|].
    apply join_unlines. }
  repeat split; try assumption.
  rewrite U. apply unlines_no_blank_line. exact Hl.
Qed.

Lemma strict_text_no_blank_line_witness :
  _process_import_block false
    [ simple_clause "a" ["b"] "D"; simple_clause "a" ["c"] "E";
      simple_clause "a" ["b"] "C" ]
  = unlines [ "import a.b.{C, D}"; "import a.c.E" ]
  /\ has_blank_line
       (_process_import_block false
          [ simple_clause "a" ["b"] "D"; simple_clause "a" ["c"] "E";
            simple_clause "a" ["b"] "C" ]) = false.
Proof.
  destruct (strict_text_no_blank_line
              [ simple_clause "a" ["b"] "D"; simple_clause "a" ["c"] "E";
                simple_clause "a" ["b"] "C" ])
    as (_ & U & _ & B); [discriminate|reflexivity|].
  split; [exact U|exact B].
Defined.

Example strict_empty_block : _process_import_block false [] = nl.
Proof. reflexivity. Qed.

(** ** Ties in fancy mode *)

Lemma dotted_split a b s t :
  has_char "." a = false -> has_char "." b = false ->
  a +:+ String "." s = b +:+ String "." t -> a = b /\ s = t.
Proof.
  revert b. induction a as [|c a IH]; intros [|d b] Ha Hb E.
  - injection E as ->. split; reflexivity.
  - rewrite string_app_cons in E. injection E as <- _.
    simpl in Hb. discriminate Hb.
  - rewrite string_app_cons in E. injection E as -> _.
    simpl in Ha. discriminate Ha.
  - rewrite !string_app_cons in E. injection E as -> E.
    simpl in Ha, Hb.
    apply orb_false_iff in Ha as [_ Ha]. apply orb_false_iff in Hb as [_ Hb].
    destruct (IH b Ha Hb E) as [-> ->]. split; reflexivity.
Qed.

Lemma join_dot_inj l1 l2 :
  forallb (fun s => negb (has_char "." s)) l1 = true ->
  forallb (fun s => negb (has_char "." s)) l2 = true ->
  l1 <> [] -> l2 <> [] ->
  join "." l1 = join "." l2 -> l1 = l2.
Proof.
  revert l2. induction l1 as [|a l1 IH]; intros l2 H1 H2 N1 N2 E;
    [contradiction|].
  destruct l2 as [|b l2]; [contradiction|].
  simpl in H1, H2.
  apply andb_true_iff in H1 as [Ha H1]. apply negb_true_iff in Ha.
  apply andb_true_iff in H2 as [Hb H2]. apply negb_true_iff in Hb.
  destruct l1 as [|a' l1], l2 as [|b' l2].
  - simpl in E. subst b. reflexivity.
  - change (join "." (b :: b' :: l2))
      with (b +:+ "." +:+ join "." (b' :: l2)) in E.
    simpl in E. subst a. rewrite !has_char_app in Ha.
    rewrite orb_true_r in Ha. discriminate Ha.
  - change (join "." (a :: a' :: l1))
      with (a +:+ "." +:+ join "." (a' :: l1)) in E.
    simpl in E. subst b. rewrite !has_char_app in Hb.
    rewrite orb_true_r in Hb. discriminate Hb.
  - change (join "." (a :: a' :: l1))
      with (a +:+ String "." (join "." (a' :: l1))) in E.
    change (join "." (b :: b' :: l2))
      with (b +:+ String "." (join "." (b' :: l2))) in E.
    destruct (dotted_split _ _ _ _ Ha Hb E) as [-> E'].
    f_equal. apply IH; try assumption; discriminate.
Qed.

Lemma path_string_inj p q :
  dot_free_path p = true -> dot_free_path q = true ->
  path_string p = path_string q -> p = q.
Proof.
  unfold dot_free_path, path_string. intros Hp Hq E.
  assert (H : path_parts p = path_parts q).
  { apply join_dot_inj; try assumption; discriminate. }
  destruct p, q. unfold path_parts in H. simpl in H.
  injection H as -> ->. reflexivity.
Qed.

Lemma filter_filter_path {A : Type} (key : A -> string) (pth : A -> Path)
    (p : Path) (k : string) (l : list A) :
  (forall x, pth x = p -> key x = k) ->
  filter (fun x => pth x = p) (filter (fun x => key x = k) l)
  = filter (fun x => pth x = p) l.
Proof.
  intros H. induction l as [|x l IH]; [reflexivity|].
  rewrite (filter_cons (fun x => key x = k)).
  destruct (decide (key x = k)) as [Hk|Hk].
  - rewrite !filter_cons, IH. reflexivity.
  - rewrite IH, filter_cons.
    destruct (decide (pth x = p)) as [Hp|Hp]; [|reflexivity].
    exfalso. apply Hk, H, Hp.
Qed.

(** The fancy sort keeps the clauses of one path in their input order. *)
Lemma fancy_sorted_filter_path block p :
  filter (fun x => path x = p) (sorted cmp_clauses_fancy block)
  = filter (fun x => path x = p) block.
Proof.
  set (k := fancy_sort_key (mkClause "" p [])).
  assert (Hk : forall x, path x = p -> fancy_sort_key x = k).
  { intros x Hx. apply fancy_sort_key_path. exact Hx. }
  rewrite <- (filter_filter_path fancy_sort_key path p k _ Hk).
  rewrite <- (filter_filter_path fancy_sort_key path p k block Hk).
  change cmp_clauses_fancy with (cmp_by fancy_sort_key).
  rewrite sorted_filter_key. reflexivity.
Qed.

(** The merge loop turns the clauses of one path, in the order it meets
    them, into groups; each group is its first clause holding the imports
    of the whole group. *)
Lemma merge_from_groups current l p :
  exists groups,
    concat groups = filter (fun x => path x = p) (current :: l)
    /\ Forall (fun g => g <> []) groups
    /\ filter (fun x => path x = p) (merge_from current l)
       = flat_map merge_group groups.
Proof.
  revert current. induction l as [|c l IH]; intros current.
  - simpl merge_from. rewrite filter_cons, filter_nil.
    destruct (decide (path current = p)).
    + exists [[current]]. simpl. rewrite !app_nil_r, with_imports_self.
      repeat split. constructor; [discriminate|constructor].
    + exists []. repeat split. constructor.
  - simpl merge_from. destruct (decide (path current = path c)) as [Hp|Hp].
    + destruct (IH (add_all_imports current c)) as (gs & Hcat & Hne & Hf).
      rewrite filter_cons, path_add_all_imports in Hcat.
      rewrite (filter_cons _ current), (filter_cons _ c), <- Hp.
      destruct (decide (path current = p)) as [E|E].
      * destruct gs as [|g gs]; [discriminate Hcat|].
        apply Forall_cons in Hne as [Hg Hne].
        destruct g as [|x g]; [contradiction|].
        simpl in Hcat. injection Hcat as -> Hcat.
        exists ((current :: c :: g) :: gs). repeat split.
        -- simpl. rewrite Hcat. reflexivity.
        -- constructor; [discriminate|exact Hne].
        -- rewrite Hf. simpl. rewrite add_all_imports_eq.
           unfold with_imports. simpl. rewrite <- app_assoc. reflexivity.
      * exists gs. repeat split; assumption.
    + destruct (IH c) as (gs & Hcat & Hne & Hf).
      rewrite (filter_cons _ current), (filter_cons _ current).
      destruct (decide (path current = p)) as [E|E].
      * exists ([current] :: gs). repeat split.
        -- simpl. rewrite Hcat. reflexivity.
        -- constructor; [discriminate|exact Hne].
        -- rewrite Hf. simpl. rewrite app_nil_r, with_imports_self.
           reflexivity.
      * exists gs. repeat split; assumption.
Qed.

Lemma merge_clauses_groups l p :
  exists groups,
    concat groups = filter (fun x => path x = p) l
    /\ Forall (fun g => g <> []) groups
    /\ filter (fun x => path x = p) (merge_clauses l)
       = flat_map merge_group groups.
Proof.
  destruct l as [|c l].
  - exists []. repeat split. constructor.
  - rewrite merge_clauses_cons. apply merge_from_groups.
Qed.

(** C10 (amended).  The fancy comparator looks at the path only: clauses
    of equal path, and so clauses of equal dotted path string, compare equal
    whatever their imports.  The stable sort therefore keeps the clauses of
    one path in their input order, and the merge loop folds them, in that
    order, into groups headed by the earliest clause of each group.  When no
    two distinct paths of the block share a sort key, the first-occurring
    clause of a path is the one all other clauses of that path are merged
    into. *)
Theorem fancy_ties_keep_input_order (block : list ImportClause) :
  (forall left right,
     path left = path right -> cmp_clauses_fancy left right = 0)
  /\ (forall left right,
        dot_free_path (path left) = true ->
        dot_free_path (path right) = true ->
        path_string (path left) = path_string (path right) ->
        cmp_clauses_fancy left right = 0)
  /\ (forall p,
        filter (fun x => path x = p) (sorted cmp_clauses_fancy block)
        = filter (fun x => path x = p) block)
  /\ (forall p, exists groups,
        concat groups = filter (fun x => path x = p) block
        /\ Forall (fun g => g <> []) groups
        /\ filter (fun x => path x = p)
             (merge_clauses (sorted cmp_clauses_fancy block))
           = flat_map merge_group groups)
  /\ (fancy_keys_injective block -> first_clause_is_merge_target block).
Proof.
  assert (H1 : forall left right,
             path left = path right -> cmp_clauses_fancy left right = 0).
  { intros left right Hp. unfold cmp_clauses_fancy.
    rewrite (fancy_sort_key_path left right Hp). apply cmp_refl. }
  split; [exact H1|].
  split.
  { intros left right Hl Hr E. apply H1, path_string_inj; assumption. }
  split; [intros p; apply fancy_sorted_filter_path|].
  split.
  { intros p.
    destruct (merge_clauses_groups (sorted cmp_clauses_fancy block) p)
      as (gs & Hcat & Hne & Hf).
    exists gs. rewrite fancy_sorted_filter_path in Hcat.
    repeat split; assumption. }
  intros Hinj p.
  rewrite merge_clauses_filter by (apply fancy_sorted_contiguous; exact Hinj).
  rewrite fancy_sorted_filter_path. reflexivity.
Qed.

Lemma fancy_ties_keep_input_order_witness :
  cmp_clauses_fancy (simple_clause "com" ["foo"] "B")
                    (braced_clause "com" ["foo"] ["A"; "C"]) = 0
  /\ filter (fun x => path x = mkPath "com" ["foo"])
       (merge_clauses
          (sorted cmp_clauses_fancy
             [ mkClause "  " (mkPath "com" ["foo"]) [mkImport "B" None];
               simple_clause "java" ["util"] "Map";
               braced_clause "com" ["foo"] ["A"; "C"] ]))
     = [ mkClause "  " (mkPath "com" ["foo"])
           [mkImport "B" None; mkImport "A" None; mkImport "C" None] ].
Proof.
  destruct (fancy_ties_keep_input_order
              [ mkClause "  " (mkPath "com" ["foo"]) [mkImport "B" None];
                simple_clause "java" ["util"] "Map";
                braced_clause "com" ["foo"] ["A"; "C"] ])
    as (_ & H2 & _ & _ & H5).
  split.
  - apply H2; reflexivity.
  - rewrite H5; [reflexivity|].
    intros a b Ha Hb.
    repeat (apply elem_of_cons in Ha as [->|Ha]);
      repeat (apply elem_of_cons in Hb as [->|Hb]);
      try (inversion Ha); try (inversion Hb);
      vm_compute; congruence.
Defined.

(** When a top-level segment imitates a fake sort key prefix, [java.x] and
    [aaa0java.x] share a sort key and the stable sort leaves the block as it
    is; [import java.x.D] is then merged into [import java.x.C], not into
    the first clause of its path, [import java.x.A]. *)
Lemma fancy_merge_target_counterexample :
  ~ first_clause_is_merge_target
      [ simple_clause "java" ["x"] "A"; simple_clause "aaa0java" ["x"] "B";
        simple_clause "java" ["x"] "C"; simple_clause "java" ["x"] "D" ].
Proof.
  intros H. specialize (H (mkPath "java" ["x"])).
  vm_compute in H. discriminate H.
Qed.

Example fancy_merge_target_counterexample_text :
  _process_import_block true
    [ simple_clause "java" ["x"] "A"; simple_clause "aaa0java" ["x"] "B";
      simple_clause "java" ["x"] "C"; simple_clause "java" ["x"] "D" ]
  = "import java.x.A" +:+ nl +:+ nl +:+ "import aaa0java.x.B" +:+ nl
    +:+ "import java.x.{C, D}" +:+ nl.
Proof. vm_compute. reflexivity. Qed.

(** ** The cursor loop *)

Lemma skip_blank_repeat k rest :
  no_blank_ahead rest = true ->
  skip_blank (repeat BlankLine k ++ rest) = (k, rest).
Proof.
  intros H. induction k as [|k IH]; simpl.
  - destruct rest as [|[c| |t] rest]; try reflexivity. discriminate H.
  - rewrite IH. reflexivity.
Qed.

Lemma skip_blank_lines_repeat k rest e :
  no_blank_ahead rest = true ->
  skip_blank_lines (mkCursor (repeat BlankLine k ++ rest) e)
  = (k, mkCursor rest e).
Proof.
  intros H. unfold skip_blank_lines. simpl.
  rewrite skip_blank_repeat by exact H. reflexivity.
Qed.

Lemma skip_blank_length ls :
  (length (snd (skip_blank ls)) <= length ls)%nat.
Proof.
  induction ls as [|[c| |t] ls IH]; simpl; try lia.
  destruct (skip_blank ls) as [n rest]. simpl in *. lia.
Qed.

Lemma ends_block_no_match rest e :
  ends_block rest = true ->
  match_import (mkCursor rest e) = (None, mkCursor rest e).
Proof.
  destruct rest as [|[c| |t] rest]; try discriminate; reflexivity.
Qed.

Lemma ends_block_no_blank rest :
  ends_block rest = true -> no_blank_ahead rest = true.
Proof. destruct rest as [|[c| |t] rest]; try discriminate; reflexivity. Qed.

Lemma last_default {A : Type} (l : list A) x d d' :
  List.last (x :: l) d = List.last (x :: l) d'.
Proof.
  revert x. induction l as [|y l IH]; intros x; [reflexivity|].
  change (List.last (y :: l) d = List.last (y :: l) d'). apply IH.
Qed.

Lemma last_blank_count_cons k c k' segs :
  last_blank_count k ((c, k') :: segs) = last_blank_count k' segs.
Proof.
  unfold last_blank_count. simpl map.
  destruct (map snd segs) as [|x l]; [reflexivity|].
  change (List.last (x :: l) k = List.last (x :: l) k'). apply last_default.
Qed.

(** The inner loop reads the whole block, keeps every clause and returns
    the count read after the last statement. *)
Lemma collect_block_segments segs fuel e k c blk rest :
  ends_block rest = true ->
  (length segs < fuel)%nat ->
  collect_block fuel
    (mkCursor (repeat BlankLine k ++ flat_map statement_lines segs ++ rest) e)
    c blk
  = Some (blk ++ c :: map fst segs, last_blank_count k segs, mkCursor rest e).
Proof.
  intros Hend. revert fuel k c blk.
  induction segs as [|[c' k'] segs IH]; intros fuel k c blk Hfuel.
  - destruct fuel as [|fuel]; [simpl in Hfuel; lia|].
    simpl flat_map. simpl app at 2. simpl collect_block.
    rewrite skip_blank_lines_repeat by (apply ends_block_no_blank, Hend).
    rewrite ends_block_no_match by exact Hend. reflexivity.
  - destruct fuel as [|fuel]; [simpl in Hfuel; lia|].
    simpl in Hfuel.
    change (flat_map statement_lines ((c', k') :: segs) ++ rest)
      with (ImportLine c'
              :: (repeat BlankLine k'
                    ++ flat_map statement_lines segs) ++ rest).
    simpl collect_block.
    rewrite skip_blank_lines_repeat by reflexivity.
    unfold match_import. simpl remaining. cbv iota beta.
    rewrite <- app_assoc, IH by lia.
    rewrite last_blank_count_cons, <- app_assoc. reflexivity.
Qed.

Lemma collect_block_total fuel cur c blk :
  (length (remaining cur) < fuel)%nat ->
  exists block n cur',
    collect_block fuel cur c blk = Some (block, n, cur')
    /\ (length (remaining cur') <= length (remaining cur))%nat
    /\ block <> [].
Proof.
  revert cur c blk. induction fuel as [|fuel IH]; intros cur c blk H; [lia|].
  simpl. unfold skip_blank_lines.
  pose proof (skip_blank_length (remaining cur)) as Hlen.
  destruct (skip_blank (remaining cur)) as [n rest]. simpl in Hlen.
  unfold match_import. simpl remaining.
  destruct rest as [|[c'| |t] rest].
  - eexists _, _, _. split; [reflexivity|]. split; [simpl; lia|].
    destruct blk; discriminate.
  - destruct (IH (mkCursor rest (emitted cur)) c' (blk ++ [c]))
      as (b & m & cur' & E & Hl & Hb).
    { simpl in *. lia. }
    exists b, m, cur'. split; [exact E|]. split; [simpl in *; lia|exact Hb].
  - eexists _, _, _. split; [reflexivity|]. split; [simpl in *; lia|].
    destruct blk; discriminate.
  - eexists _, _, _. split; [reflexivity|]. split; [simpl in *; lia|].
    destruct blk; discriminate.
Qed.

Lemma search_lines_length ls out :
  match search_lines ls out with
  | (Some _, rest, _) => (length rest < length ls)%nat
  | (None, rest, _) => (length rest <= length ls)%nat
  end.
Proof.
  revert out. induction ls as [|[c| |t] ls IH]; intros out; simpl; try lia.
  - specialize (IH (out +:+ nl)).
    destruct (search_lines ls (out +:+ nl)) as [[[c|] rest] o]; lia.
  - specialize (IH (out +:+ (t +:+ nl))).
    destruct (search_lines ls (out +:+ (t +:+ nl))) as [[[c|] rest] o]; lia.
Qed.

Lemma search_length cur :
  match search cur with
  | (Some _, cur') => (length (remaining cur') < length (remaining cur))%nat
  | (None, cur') => (length (remaining cur') <= length (remaining cur))%nat
  end.
Proof.
  unfold search.
  pose proof (search_lines_length (remaining cur) (emitted cur)) as H.
  destruct (search_lines (remaining cur) (emitted cur)) as [[[c|] rest] o];
    exact H.
Qed.

Lemma search_lines_skips pre c rest out :
  forallb no_import pre = true ->
  search_lines (pre ++ ImportLine c :: rest) out
  = (Some c, rest, out +:+ verbatim_lines pre).
Proof.
  revert out. induction pre as [|l pre IH]; intros out H.
  - simpl. rewrite string_app_nil_r. reflexivity.
  - simpl in H. apply andb_true_iff in H as [Hl H].
    destruct l as [c'| |t]; [discriminate Hl| |]; simpl;
      rewrite IH by exact H; rewrite string_app_assoc; reflexivity.
Qed.

Lemma rewrite_blocks_step fancy fuel cur c :
  rewrite_blocks fancy (S fuel) cur (Some c)
  = match collect_block (S (length (remaining cur))) cur c [] with
    | None => None
    | Some (b, n, cur') =>
        let '(next, cur'') :=
          search (emit (newlines n)
                    (emit (_process_import_block fancy b) cur')) in
        rewrite_blocks fancy fuel cur'' next
    end.
Proof. reflexivity. Qed.

(** The outer loop always ends once the fuel exceeds the lines left. *)
Lemma rewrite_blocks_total fancy fuel cur ic :
  (length (remaining cur) < fuel)%nat ->
  exists out, rewrite_blocks fancy fuel cur ic = Some out.
Proof.
  revert cur ic. induction fuel as [|fuel IH]; intros cur ic H; [lia|].
  destruct ic as [c|]; [|exists cur; reflexivity].
  rewrite rewrite_blocks_step.
  destruct (collect_block_total (S (length (remaining cur))) cur c [])
    as (b & n & cur' & E & Hl & _); [lia|].
  rewrite E.
  pose proof (search_length
                (emit (newlines n) (emit (_process_import_block fancy b) cur')))
    as Hs.
  destruct (search
              (emit (newlines n) (emit (_process_import_block fancy b) cur')))
    as [next cur''].
  simpl in Hs. destruct next as [c'|].
  - apply IH. lia.
  - exists cur''. destruct fuel; reflexivity.
Qed.

Lemma rewrite_blocks_mono fancy fuel fuel' cur ic out :
  rewrite_blocks fancy fuel cur ic = Some out ->
  (fuel <= fuel')%nat ->
  rewrite_blocks fancy fuel' cur ic = Some out.
Proof.
  revert fuel' cur ic. induction fuel as [|fuel IH]; intros fuel' cur ic H Hle.
  - destruct ic as [c|]; [discriminate H|].
    destruct fuel'; exact H.
  - destruct ic as [c|]; [|destruct fuel'; exact H].
    destruct fuel' as [|fuel']; [lia|].
    rewrite rewrite_blocks_step in H |- *.
    destruct (collect_block (S (length (remaining cur))) cur c [])
      as [[[b n] cur']|]; [|discriminate H].
    destruct (search
                (emit (newlines n)
                   (emit (_process_import_block fancy b) cur')))
      as [next cur''].
    apply IH; [exact H|lia].
Qed.

Lemma rewrite_blocks_fuel fancy fuel1 fuel2 cur ic :
  (length (remaining cur) < fuel1)%nat ->
  (length (remaining cur) < fuel2)%nat ->
  rewrite_blocks fancy fuel1 cur ic = rewrite_blocks fancy fuel2 cur ic.
Proof.
  intros H1 H2.
  destruct (rewrite_blocks_total fancy (S (length (remaining cur))) cur ic)
    as [out E]; [lia|].
  rewrite (rewrite_blocks_mono _ _ fuel1 _ _ _ E) by lia.
  rewrite (rewrite_blocks_mono _ _ fuel2 _ _ _ E) by lia.
  reflexivity.
Qed.

Lemma apply_to_rewrite_cursor_total fancy cur :
  exists out, apply_to_rewrite_cursor fancy cur = Some out.
Proof.
  unfold apply_to_rewrite_cursor.
  pose proof (search_length cur) as Hs.
  destruct (search cur) as [ic cur'].
  destruct ic as [c|]; [|exists cur'; reflexivity].
  apply rewrite_blocks_total. lia.
Qed.

Lemma statement_lines_length segs :
  (length segs <= length (flat_map statement_lines segs))%nat.
Proof.
  induction segs as [|[c k] segs IH]; simpl; [lia|].
  rewrite length_app. lia.
Qed.

Lemma search_lines_none ls out :
  forallb no_import ls = true ->
  search_lines ls out = (None, [], out +:+ verbatim_lines ls).
Proof.
  revert out. induction ls as [|l ls IH]; intros out H.
  - simpl. rewrite string_app_nil_r. reflexivity.
  - simpl in H. apply andb_true_iff in H as [Hl H].
    destruct l as [c'| |t]; [discriminate Hl| |]; simpl;
      rewrite IH by exact H; rewrite string_app_assoc; reflexivity.
Qed.

Lemma rewrite_blocks_none fancy fuel cur :
  rewrite_blocks fancy fuel cur None = Some cur.
Proof. destruct fuel; reflexivity. Qed.

(** One round of the outer loop on a block that starts at the cursor. *)
Lemma apply_block fancy pre c k segs rest e :
  forallb no_import pre = true ->
  ends_block rest = true ->
  apply_to_rewrite_cursor fancy
    (mkCursor (pre ++ ImportLine c
                 :: repeat BlankLine k ++ flat_map statement_lines segs
                    ++ rest) e)
  = apply_to_rewrite_cursor fancy
      (mkCursor rest
         (e +:+ verbatim_lines pre
            +:+ _process_import_block fancy (c :: map fst segs)
            +:+ newlines (last_blank_count k segs))).
Proof.
  intros Hpre Hend.
  unfold apply_to_rewrite_cursor at 1. unfold search at 1.
  simpl remaining. simpl emitted.
  rewrite search_lines_skips by exact Hpre.
  rewrite rewrite_blocks_step. simpl remaining.
  rewrite (collect_block_segments segs _ _ k c [] rest Hend).
  2:{ pose proof (statement_lines_length segs). rewrite !length_app. lia. }
  simpl app. unfold emit. simpl remaining. simpl emitted.
  rewrite !string_app_assoc.
  unfold apply_to_rewrite_cursor.
  match goal with
  | |- context [search ?cur] =>
      pose proof (search_length cur) as Hs; destruct (search cur) as [next cur2]
  end.
  simpl remaining in Hs.
  destruct next as [c2|]; [|rewrite !rewrite_blocks_none; reflexivity].
  apply rewrite_blocks_fuel.
  - rewrite !length_app. simpl. rewrite !length_app. lia.
  - simpl. lia.
Qed.

Lemma newlines_length n : String.length (newlines n) = n.
Proof. induction n as [|n IH]; simpl; [|rewrite IH]; reflexivity. Qed.

Lemma newlines_blank_lines n : newlines n = blank_lines_text n.
Proof.
  unfold blank_lines_text. induction n as [|n IH]; [reflexivity|].
  simpl repeat. simpl unlines. rewrite <- IH. reflexivity.
Qed.

Lemma blank_lines_text_length n : String.length (blank_lines_text n) = n.
Proof. rewrite <- newlines_blank_lines. apply newlines_length. Qed.

Lemma blank_lines_text_only_newlines n :
  only_char newline_char (blank_lines_text n) = true.
Proof.
  rewrite <- newlines_blank_lines.
  induction n as [|n IH]; [reflexivity|].
  simpl. rewrite IH. reflexivity.
Qed.

(** C8.  For a block that starts with the statement [c], goes on with the
    statements [segs], each with the blank lines after it, and is followed
    by [rest], the cursor loop emits the processed text of the block and
    then exactly as many blank lines, that is newline characters, as there
    are blank lines after the last statement; the blank lines after the
    earlier statements are consumed and leave no trace in the output. *)
Theorem block_keeps_last_blank_count
    (fancy : bool) (pre : list source_line) (c : ImportClause) (k : nat)
    (segs : list (ImportClause * nat)) (rest : list source_line)
    (e : string) :
  forallb no_import pre = true ->
  ends_block rest = true ->
  apply_to_rewrite_cursor fancy
    (mkCursor (pre ++ ImportLine c
                 :: repeat BlankLine k ++ flat_map statement_lines segs
                    ++ rest) e)
  = apply_to_rewrite_cursor fancy
      (mkCursor rest
         (e +:+ verbatim_lines pre
            +:+ _process_import_block fancy (c :: map fst segs)
            +:+ blank_lines_text (last_blank_count k segs)))
  /\ String.length (blank_lines_text (last_blank_count k segs))
     = last_blank_count k segs
  /\ only_char newline_char (blank_lines_text (last_blank_count k segs))
     = true
  /\ (exists out,
        apply_to_rewrite_cursor fancy
          (mkCursor (pre ++ ImportLine c
                       :: repeat BlankLine k ++ flat_map statement_lines segs
                          ++ rest) e) = Some out)
  /\ (forallb no_import rest = true ->
      apply_to_rewrite_cursor fancy
        (mkCursor (pre ++ ImportLine c
                     :: repeat BlankLine k ++ flat_map statement_lines segs
                        ++ rest) e)
      = Some (mkCursor []
                (e +:+ verbatim_lines pre
                   +:+ _process_import_block fancy (c :: map fst segs)
                   +:+ blank_lines_text (last_blank_count k segs)
                   +:+ verbatim_lines rest))).
Proof.
  intros Hpre Hend.
  rewrite <- newlines_blank_lines.
  split; [apply apply_block; assumption|].
  split; [apply newlines_length|].
  split; [rewrite newlines_blank_lines; apply blank_lines_text_only_newlines|].
  split; [apply apply_to_rewrite_cursor_total|].
  intros Hrest. rewrite apply_block by assumption.
  unfold apply_to_rewrite_cursor, search. simpl remaining. simpl emitted.
  rewrite search_lines_none by exact Hrest.
  rewrite !string_app_assoc. reflexivity.
Qed.

Lemma block_keeps_last_blank_count_witness :
  apply_to_rewrite_cursor false
    (mkCursor
       [ OtherLine "package x"; BlankLine;
         ImportLine (simple_clause "a" ["b"] "D"); BlankLine; BlankLine;
         BlankLine;
         ImportLine (simple_clause "a" ["b"] "C"); BlankLine; BlankLine;
         OtherLine "class Y" ] "")
  = Some (mkCursor []
            ("package x" +:+ nl +:+ nl +:+ "import a.b.{C, D}" +:+ nl
             +:+ nl +:+ nl
             +:+ "class Y" +:+ nl))
  /\ String.length (blank_lines_text 2) = 2%nat.
Proof.
  destruct (block_keeps_last_blank_count false
              [ OtherLine "package x"; BlankLine ]
              (simple_clause "a" ["b"] "D") 3
              [ (simple_clause "a" ["b"] "C", 2%nat) ]
              [ OtherLine "class Y" ] "")
    as (_ & L & _ & _ & H); [reflexivity|reflexivity|].
  split; [exact (H eq_refl)|exact L].
Defined.


(** * Further properties of the sorter *)

(** ** The comparators as orderings *)

Lemma cmp_app_l p a b : cmp (p +:+ a) (p +:+ b) = cmp a b.
Proof.
  unfold cmp. induction p as [|c p IH]; [reflexivity|].
  rewrite !string_app_cons. simpl. rewrite ascii_compare_refl. exact IH.
Qed.

Lemma select_cmp_by fancy a b :
  select_cmp fancy a b
  = cmp (if fancy then fancy_sort_key a else string_for_cmp a)
        (if fancy then fancy_sort_key b else string_for_cmp b).
Proof. destruct fancy; reflexivity. Qed.

(** X1.  Either comparator is a consistent ordering: it answers [-1], [0]
    or [1], a clause compares equal to itself, swapping the arguments
    negates the answer, and "not after" is transitive. *)
Theorem comparators_consistent (fancy : bool) (a b c : ImportClause) :
  (select_cmp fancy a b = -1 \/ select_cmp fancy a b = 0
   \/ select_cmp fancy a b = 1)
  /\ select_cmp fancy a a = 0
  /\ select_cmp fancy b a = - select_cmp fancy a b
  /\ (select_cmp fancy a b <= 0 -> select_cmp fancy b c <= 0 ->
      select_cmp fancy a c <= 0)
  /\ (select_cmp fancy a b < 0 -> select_cmp fancy b c < 0 ->
      select_cmp fancy a c < 0).
Proof.
  rewrite !select_cmp_by.
  split; [apply cmp_values|].
  split; [apply cmp_refl|].
  split; [apply cmp_antisym|].
  split; [apply cmp_le_trans|apply cmp_lt_trans].
Qed.

Lemma comparators_consistent_witness :
  select_cmp false (braced_clause "a" ["b"] ["C"; "D"])
                   (simple_clause "a" ["c"] "E") < 0.
Proof.
  destruct (comparators_consistent false
              (braced_clause "a" ["b"] ["C"; "D"])
              (simple_clause "a" ["b"] "Z")
              (simple_clause "a" ["c"] "E")) as (_ & _ & _ & _ & H).
  apply H; reflexivity.
Defined.

(** X2.  In fancy mode the four special packages come in the order of
    their rank prefixes, [java], [javax], [scala], [scalax], whatever the
    rest of the two paths. *)
Theorem fancy_rank_decides (left right : ImportClause) :
  in_special_cases left = true ->
  in_special_cases right = true ->
  cmp (rank_prefix (top_level (path left)))
      (rank_prefix (top_level (path right))) < 0 ->
  cmp_clauses_fancy left right = -1.
Proof.
  unfold cmp_clauses_fancy.
  rewrite !in_special_cases_top, !fancy_sort_key_rank.
  unfold is_special_top, rank_prefix.
  case_top (top_level (path left)); case_top (top_level (path right));
    simpl; intros Hl Hr Hlt;
    try discriminate Hl; try discriminate Hr;
    try (vm_compute in Hlt; discriminate Hlt);
    reflexivity.
Qed.

Lemma fancy_rank_decides_witness :
  cmp_clauses_fancy (simple_clause "javax" ["zzz"] "Z")
                    (simple_clause "scala" ["aaa"] "A") = -1.
Proof. apply fancy_rank_decides; reflexivity. Defined.

(** X3.  In fancy mode two clauses with the same rank prefix, so two
    clauses of the same special package or two clauses of other packages,
    are ordered by their dotted path strings alone. *)
Theorem fancy_same_rank_by_path (left right : ImportClause) :
  rank_prefix (top_level (path left)) = rank_prefix (top_level (path right)) ->
  cmp_clauses_fancy left right
  = cmp (path_string (path left)) (path_string (path right)).
Proof.
  intros H. unfold cmp_clauses_fancy.
  rewrite !fancy_sort_key_rank, H. apply cmp_app_l.
Qed.

Lemma fancy_same_rank_by_path_witness :
  cmp_clauses_fancy (simple_clause "org" ["x"] "A")
                    (simple_clause "com" ["y"] "B")
  = cmp "org.x" "com.y".
Proof.
  apply (fancy_same_rank_by_path (simple_clause "org" ["x"] "A")
                                 (simple_clause "com" ["y"] "B")).
  reflexivity.
Defined.

(** ** The merge loop on arbitrary clauses *)

Lemma merge_from_runs current l :
  exists runs,
    concat runs = current :: l
    /\ Forall (fun g => g <> []
                        /\ exists p, Forall (fun x => path x = p) g) runs
    /\ merge_from current l = flat_map merge_group runs.
Proof.
  revert current. induction l as [|c l IH]; intros current.
  - exists [[current]]. simpl. rewrite !app_nil_r, with_imports_self.
    repeat split. constructor; [|constructor].
    split; [discriminate|]. exists (path current).
    constructor; [reflexivity|constructor].
  - simpl merge_from. destruct (decide (path current = path c)) as [Hp|Hp].
    + destruct (IH (add_all_imports current c)) as (gs & Hcat & Hok & Hm).
      destruct gs as [|g gs]; [discriminate Hcat|].
      apply Forall_cons in Hok as [[Hg [p Hgp]] Hok].
      destruct g as [|x g]; [contradiction|].
      simpl in Hcat. injection Hcat as -> Hcat.
      apply Forall_cons in Hgp as [Hx Hgp].
      rewrite path_add_all_imports in Hx.
      exists ((current :: c :: g) :: gs). repeat split.
      * simpl. rewrite Hcat. reflexivity.
      * constructor; [|exact Hok]. split; [discriminate|].
        exists p. constructor; [exact Hx|].
        constructor; [rewrite <- Hp; exact Hx|exact Hgp].
      * rewrite Hm. simpl. rewrite add_all_imports_eq.
        unfold with_imports. simpl. rewrite <- app_assoc. reflexivity.
    + destruct (IH c) as (gs & Hcat & Hok & Hm).
      exists ([current] :: gs). repeat split.
      * simpl. rewrite Hcat. reflexivity.
      * constructor; [|exact Hok]. split; [discriminate|].
        exists (path current). constructor; [reflexivity|constructor].
      * rewrite Hm. simpl. rewrite app_nil_r, with_imports_self.
        reflexivity.
Qed.

(** X4.  Under either policy the merge loop cuts the sorted clauses into
    runs of neighbours with one path; every merged clause is the first
    clause of its run, with its own indentation and path, holding the
    imports of the whole run in sorted-clause order, and neighbouring merged
    clauses differ in path. *)
Theorem merge_is_by_runs (fancy : bool) (block : list ImportClause) :
  exists runs,
    concat runs = sorted (select_cmp fancy) block
    /\ Forall (fun g => g <> []
                        /\ exists p, Forall (fun x => path x = p) g) runs
    /\ merge_clauses (sorted (select_cmp fancy) block)
       = flat_map merge_group runs
    /\ processed_clauses fancy block
       = map sort_imports (flat_map merge_group runs)
    /\ distinct_neighbours (processed_clauses fancy block).
Proof.
  assert (Hd : distinct_neighbours (processed_clauses fancy block)).
  { apply distinct_neighbours_sort_imports, merge_clauses_distinct. }
  unfold processed_clauses in *.
  destruct (sorted (select_cmp fancy) block) as [|c l].
  - exists []. repeat split; try constructor.
  - destruct (merge_from_runs c l) as (runs & Hcat & Hok & Hm).
    exists runs. rewrite merge_clauses_cons in Hd |- *. rewrite <- Hm.
    repeat split; assumption.
Qed.

Lemma merge_from_length current l :
  (length (merge_from current l) <= S (length l))%nat.
Proof.
  revert current. induction l as [|c l IH]; intros current; [simpl; lia|].
  simpl. destruct (decide (path current = path c)).
  - specialize (IH (add_all_imports current c)). lia.
  - specialize (IH c). simpl. lia.
Qed.

Lemma sorted_length {A : Type} (f : A -> A -> Z) (l : list A) :
  length (sorted f l) = length l.
Proof. apply Permutation_length, sorted_perm. Qed.

(** X5.  Processing never adds a clause: the processed block has at most as
    many clauses as the input, and it is empty only for an empty input. *)
Theorem processed_no_longer (fancy : bool) (block : list ImportClause) :
  (length (processed_clauses fancy block) <= length block)%nat
  /\ (processed_clauses fancy block = [] <-> block = []).
Proof.
  split.
  - unfold processed_clauses. rewrite length_map.
    rewrite <- (sorted_length (select_cmp fancy) block).
    destruct (sorted (select_cmp fancy) block) as [|c l]; [simpl; lia|].
    rewrite merge_clauses_cons. apply merge_from_length.
  - split.
    + intros H. destruct block as [|c l]; [reflexivity|].
      exfalso. apply (processed_clauses_not_nil fancy (c :: l));
        [discriminate|exact H].
    + intros ->. reflexivity.
Qed.

Lemma merge_from_covers current l y :
  y ∈ current :: l ->
  exists x, x ∈ merge_from current l /\ path x = path y.
Proof.
  revert current y. induction l as [|c l IH]; intros current y Hy.
  - exists current. apply list_elem_of_singleton in Hy as ->.
    split; [left|reflexivity].
  - simpl. destruct (decide (path current = path c)) as [Hp|Hp].
    + apply elem_of_cons in Hy as [->|Hy].
      * destruct (IH (add_all_imports current c)
                     (add_all_imports current c)) as (x & Hx & Hxp); [left|].
        exists x. split; [exact Hx|].
        rewrite Hxp. apply path_add_all_imports.
      * apply elem_of_cons in Hy as [->|Hy].
        -- destruct (IH (add_all_imports current c)
                        (add_all_imports current c)) as (x & Hx & Hxp);
             [left|].
           exists x. split; [exact Hx|].
           rewrite Hxp, path_add_all_imports. exact Hp.
        -- apply IH. right. exact Hy.
    + apply elem_of_cons in Hy as [->|Hy].
      * exists current. split; [left|reflexivity].
      * destruct (IH c y Hy) as (x & Hx & Hxp).
        exists x. split; [right; exact Hx|exact Hxp].
Qed.

Lemma elem_of_map_path p (l : list ImportClause) :
  p ∈ map path l <-> exists x, x ∈ l /\ path x = p.
Proof.
  rewrite list_elem_of_In, in_map_iff. split.
  - intros (x & Hx & Hin). exists x. split; [|exact Hx].
    apply list_elem_of_In. exact Hin.
  - intros (x & Hin & Hx). exists x. split; [exact Hx|].
    apply list_elem_of_In. exact Hin.
Qed.

Lemma merge_clauses_paths l p :
  p ∈ map path (merge_clauses l) <-> p ∈ map path l.
Proof.
  destruct l as [|c l]; [reflexivity|].
  rewrite merge_clauses_cons, !elem_of_map_path. split.
  - intros (x & Hx & Hp). destruct (merge_from_paths _ _ _ Hx) as (y & Hy & E).
    exists y. split; [exact Hy|]. rewrite E. exact Hp.
  - intros (y & Hy & Hp). destruct (merge_from_covers _ _ _ Hy) as (x & Hx & E).
    exists x. split; [exact Hx|]. rewrite E. exact Hp.
Qed.

(** X6.  Under either policy the paths of the processed clauses are exactly
    the paths of the input block: no path is lost and none is invented, also
    for a clause without imports. *)
Theorem processed_paths (fancy : bool) (block : list ImportClause) (p : Path) :
  p ∈ map path (processed_clauses fancy block) <-> p ∈ map path block.
Proof.
  unfold processed_clauses.
  assert (E : map path (map sort_imports
                (merge_clauses (sorted (select_cmp fancy) block)))
              = map path (merge_clauses (sorted (select_cmp fancy) block))).
  { rewrite map_map. reflexivity. }
  rewrite E, merge_clauses_paths.
  rewrite (sorted_perm (select_cmp fancy) block). reflexivity.
Qed.

(** X7.  In fancy mode the processed clauses are always in fancy order,
    and processing them again returns the same clauses and the same text. *)
Theorem fancy_process_idempotent (block : list ImportClause) :
  is_sorted cmp_clauses_fancy (processed_clauses true block) = true
  /\ processed_clauses true (processed_clauses true block)
     = processed_clauses true block
  /\ _process_import_block true (processed_clauses true block)
     = _process_import_block true block.
Proof.
  split; [apply fancy_processed_is_sorted|].
  apply (process_idempotent true). left. reflexivity.
Qed.

Lemma merge_from_same_path current l :
  Forall (fun x => path x = path current) l ->
  merge_from current l
  = [with_imports current (imports current ++ flat_map imports l)].
Proof.
  revert current. induction l as [|c l IH]; intros current H.
  - simpl. rewrite app_nil_r, with_imports_self. reflexivity.
  - apply Forall_cons in H as [Hc Hl].
    simpl. destruct (decide (path current = path c)) as [_|Hp];
      [|exfalso; apply Hp; symmetry; exact Hc].
    rewrite IH.
    + rewrite add_all_imports_eq. unfold with_imports. simpl.
      rewrite <- app_assoc. reflexivity.
    + rewrite path_add_all_imports. exact Hl.
Qed.

(** X8.  Under either policy a block whose clauses all have one path comes
    out as a single clause of that path, holding the imports of all of
    them. *)
Theorem one_path_one_clause
    (fancy : bool) (block : list ImportClause) (p : Path) :
  block <> [] ->
  Forall (fun x => path x = p) block ->
  exists c,
    processed_clauses fancy block = [c]
    /\ path c = p
    /\ imports c ≡ₚ flat_map imports block.
Proof.
  intros Hne Hall.
  pose proof (sorted_perm (select_cmp fancy) block) as HS.
  assert (HallS : Forall (fun x => path x = p)
                    (sorted (select_cmp fancy) block)).
  { rewrite HS. exact Hall. }
  unfold processed_clauses.
  destruct (sorted (select_cmp fancy) block) as [|c l].
  - exfalso. apply Hne. apply Permutation_nil. exact HS.
  - apply Forall_cons in HallS as [Hc Hl].
    rewrite merge_clauses_cons, merge_from_same_path.
    2:{ eapply Forall_impl; [exact Hl|]. intros x Hx. congruence. }
    eexists. split; [reflexivity|]. split; [exact Hc|].
    simpl. rewrite sorted_perm.
    change (flat_map imports (c :: l) ≡ₚ flat_map imports block).
    apply (Permutation_flat_map imports). exact HS.
Qed.

Lemma one_path_one_clause_witness :
  exists c,
    processed_clauses false
      [ simple_clause "a" ["b"] "D"; braced_clause "a" ["b"] ["E"; "C"] ]
    = [c]
    /\ path c = mkPath "a" ["b"]
    /\ imports c
       ≡ₚ flat_map imports
            [ simple_clause "a" ["b"] "D";
              braced_clause "a" ["b"] ["E"; "C"] ].
Proof.
  apply one_path_one_clause; [discriminate|].
  repeat constructor.
Defined.

Lemma NoDup_paths_distinct l :
  NoDup (map path l) -> distinct_neighbours l.
Proof.
  induction l as [|a l IH]; [intros _; exact I|].
  intros H. apply NoDup_cons in H as [Ha Hl].
  split; [|apply IH; exact Hl].
  destruct l as [|b l]; [exact I|].
  intros E. apply Ha. rewrite E. left.
Qed.

(** X9.  Under either policy a block whose clauses have pairwise distinct
    paths is only sorted: no clause is merged, and the processed clauses are
    the sorted clauses, each with its imports sorted. *)
Theorem distinct_paths_no_merge (fancy : bool) (block : list ImportClause) :
  NoDup (map path block) ->
  processed_clauses fancy block
  = map sort_imports (sorted (select_cmp fancy) block)
  /\ length (processed_clauses fancy block) = length block.
Proof.
  intros Hnd.
  assert (E : processed_clauses fancy block
              = map sort_imports (sorted (select_cmp fancy) block)).
  { unfold processed_clauses. rewrite merge_clauses_fixed; [reflexivity|].
    apply NoDup_paths_distinct.
    assert (HP : map path (sorted (select_cmp fancy) block)
                 ≡ₚ map path block).
    { apply Permutation_map, sorted_perm. }
    rewrite HP. exact Hnd. }
  split; [exact E|].
  rewrite E, length_map. apply sorted_length.
Qed.

Lemma distinct_paths_no_merge_witness :
  processed_clauses true
    [ simple_clause "com" ["foo"] "Bar"; simple_clause "java" ["util"] "Map" ]
  = [ simple_clause "java" ["util"] "Map"; simple_clause "com" ["foo"] "Bar" ].
Proof.
  destruct (distinct_paths_no_merge true
              [ simple_clause "com" ["foo"] "Bar";
                simple_clause "java" ["util"] "Map" ]) as [E _].
  - repeat constructor; vm_compute; intros H; inversion H; subst;
      match goal with
      | H' : _ ∈ [] |- _ => inversion H'
      | H' : _ ∈ _ :: _ |- _ => inversion H'
      end.
  - rewrite E. reflexivity.
Defined.

(** ** Blank lines inside a block *)

Lemma spaced_lines_strict b b' l :
  spaced_lines false b l = spaced_lines false b' l.
Proof. destruct l; reflexivity. Qed.

Lemma foldl_emit_spaced fancy lines flag l :
  fst (foldl (emit_clause fancy) (lines, flag) l)
  = lines ++ spaced_lines fancy flag l.
Proof.
  revert lines flag. induction l as [|c l IH]; intros lines flag.
  - simpl. rewrite app_nil_r. reflexivity.
  - change (foldl (emit_clause fancy) (lines, flag) (c :: l))
      with (foldl (emit_clause fancy) (emit_clause fancy (lines, flag) c) l).
    destruct (emit_clause fancy (lines, flag) c) as [lines' flag'] eqn:E.
    rewrite IH. unfold emit_clause in E.
    rewrite in_special_cases_sort_imports in E. simpl spaced_lines.
    destruct fancy, (in_special_cases c) eqn:Ec, flag; simpl in E;
      injection E as <- <-; simpl; rewrite <- ?app_assoc; simpl;
      try reflexivity;
      f_equal; f_equal; apply spaced_lines_strict.
Qed.

Lemma block_lines_spaced fancy l :
  block_lines fancy l = spaced_lines fancy false l.
Proof. unfold block_lines. rewrite foldl_emit_spaced. reflexivity. Qed.

Lemma tidy_spaced fancy b l :
  tidy_from false (spaced_lines fancy b l) = true.
Proof.
  revert b. induction l as [|c l IH]; intros b; [reflexivity|].
  simpl spaced_lines.
  destruct (fancy && b && negb (in_special_cases c)); simpl.
  - destruct (decide (str (sort_imports c) = "")) as [E|_];
      [exfalso; exact (str_not_empty _ E)|apply IH].
  - destruct (decide (str (sort_imports c) = "")) as [E|_];
      [exfalso; exact (str_not_empty _ E)|apply IH].
Qed.

(** X10.  The lines of a processed block: a blank line is written exactly
    in front of a clause that is not special and follows a special one, and
    only in fancy mode.  So the lines of a non-empty block never start or end
    with a blank line and never hold two blank lines in a row. *)
Theorem block_lines_blank_discipline
    (fancy : bool) (block : list ImportClause) :
  block <> [] ->
  block_lines fancy (merge_clauses (sorted (select_cmp fancy) block))
  = spaced_lines fancy false
      (merge_clauses (sorted (select_cmp fancy) block))
  /\ tidy_from true
       (block_lines fancy (merge_clauses (sorted (select_cmp fancy) block)))
     = true
  /\ _process_import_block fancy block
     = unlines
         (block_lines fancy (merge_clauses (sorted (select_cmp fancy) block))).
Proof.
  intros Hne.
  pose proof (processed_clauses_not_nil fancy block Hne) as Hp.
  unfold processed_clauses in Hp.
  unfold _process_import_block. cbv zeta.
  rewrite block_lines_spaced.
  destruct (merge_clauses (sorted (select_cmp fancy) block)) as [|c l];
    [contradiction|].
  split; [reflexivity|]. split.
  - simpl. rewrite !andb_false_r. simpl.
    destruct (decide (str (sort_imports c) = "")) as [E|_];
      [exfalso; exact (str_not_empty _ E)|apply tidy_spaced].
  - simpl spaced_lines. rewrite !andb_false_r. simpl app.
    apply join_unlines.
Qed.

Lemma block_lines_blank_discipline_witness :
  block_lines true
    (merge_clauses
       (sorted (select_cmp true)
          [ simple_clause "com" ["foo"] "Bar";
            simple_clause "scala" ["x"] "Y";
            simple_clause "java" ["util"] "Map" ]))
  = [ "import java.util.Map"; "import scala.x.Y"; ""; "import com.foo.Bar" ]
  /\ tidy_from true
       [ "import java.util.Map"; "import scala.x.Y"; "";
         "import com.foo.Bar" ] = true.
Proof.
  destruct (block_lines_blank_discipline true
              [ simple_clause "com" ["foo"] "Bar";
                simple_clause "scala" ["x"] "Y";
                simple_clause "java" ["util"] "Map" ]) as (E & T & _);
    [discriminate|].
  assert (L : block_lines true
    (merge_clauses
       (sorted (select_cmp true)
          [ simple_clause "com" ["foo"] "Bar";
            simple_clause "scala" ["x"] "Y";
            simple_clause "java" ["util"] "Map" ]))
    = [ "import java.util.Map"; "import scala.x.Y"; "";
        "import com.foo.Bar" ]) by (rewrite E; vm_compute; reflexivity).
  split; [exact L|]. rewrite <- L. exact T.
Defined.

(** ** The cursor loop on a whole text *)

Lemma blocks_ok_rest b bs :
  blocks_ok (b :: bs) = true ->
  forallb no_import (after_block b) = true
  /\ ends_block (after_block b ++ file_lines bs) = true
  /\ blocks_ok bs = true.
Proof.
  simpl. intros H.
  apply andb_true_iff in H as [H Hbs].
  apply andb_true_iff in H as [H Hlast].
  apply andb_true_iff in H as [Hni Hend].
  repeat split; try assumption.
  destruct (after_block b) as [|[c| |t] post]; try discriminate Hend.
  - destruct bs; [reflexivity|discriminate Hlast].
  - reflexivity.
Qed.

(** The output for a text laid out as blocks with the lines between
    them. *)
Lemma apply_file fancy bs pre e :
  forallb no_import pre = true ->
  blocks_ok bs = true ->
  apply_to_rewrite_cursor fancy (mkCursor (pre ++ file_lines bs) e)
  = Some (mkCursor []
            (e +:+ verbatim_lines pre +:+ file_text fancy bs)).
Proof.
  revert pre e. induction bs as [|b bs IH]; intros pre e Hpre Hok.
  - simpl file_lines. rewrite app_nil_r.
    unfold apply_to_rewrite_cursor, search. simpl remaining. simpl emitted.
    rewrite search_lines_none by exact Hpre.
    simpl file_text. rewrite string_app_nil_r. reflexivity.
  - destruct (blocks_ok_rest b bs Hok) as (Hni & Hend & Hbs).
    simpl file_lines.
    rewrite (apply_block fancy pre (first_clause b) (first_blanks b)
               (more_statements b) (after_block b ++ file_lines bs) e
               Hpre Hend).
    rewrite (IH (after_block b) _ Hni Hbs).
    simpl file_text. unfold block_clauses.
    rewrite !string_app_assoc. reflexivity.
Qed.

(** X11.  The output for a whole text: the lines in front of the first
    block and between the blocks are written unchanged and in order, each
    block is replaced by its processed text followed by as many newlines as
    there are blank lines after its last statement, and a text without any
    import statement is written unchanged. *)
Theorem whole_text_output
    (fancy : bool) (pre : list source_line) (bs : list block_text)
    (e : string) :
  forallb no_import pre = true ->
  blocks_ok bs = true ->
  apply_to_rewrite_cursor fancy (mkCursor (pre ++ file_lines bs) e)
  = Some (mkCursor []
            (e +:+ verbatim_lines pre +:+ file_text fancy bs))
  /\ apply_to_rewrite_cursor fancy (mkCursor pre e)
     = Some (mkCursor [] (e +:+ verbatim_lines pre)).
Proof.
  intros Hpre Hok. split; [apply apply_file; assumption|].
  pose proof (apply_file fancy [] pre e Hpre eq_refl) as H.
  simpl file_lines in H. simpl file_text in H.
  rewrite app_nil_r, string_app_nil_r in H. exact H.
Qed.

Lemma whole_text_output_witness :
  apply_to_rewrite_cursor true
    (mkCursor
       [ OtherLine "package p"; BlankLine;
         ImportLine (simple_clause "com" ["foo"] "Bar"); BlankLine;
         ImportLine (simple_clause "java" ["util"] "Map");
         OtherLine "object A {";
         ImportLine (mkClause "  " (mkPath "a" ["b"]) [mkImport "D" None]);
         ImportLine (mkClause "  " (mkPath "a" ["b"]) [mkImport "C" None]);
         BlankLine; BlankLine;
         OtherLine "}" ] "")
  = Some (mkCursor []
            ("package p" +:+ nl +:+ nl
             +:+ "import java.util.Map" +:+ nl +:+ nl
             +:+ "import com.foo.Bar" +:+ nl
             +:+ "object A {" +:+ nl
             +:+ "  import a.b.{C, D}" +:+ nl +:+ nl +:+ nl
             +:+ "}" +:+ nl)).
Proof.
  destruct (whole_text_output true
              [ OtherLine "package p"; BlankLine ]
              [ mkBlockText (simple_clause "com" ["foo"] "Bar") 1
                  [ (simple_clause "java" ["util"] "Map", 0%nat) ]
                  [ OtherLine "object A {" ];
                mkBlockText
                  (mkClause "  " (mkPath "a" ["b"]) [mkImport "D" None]) 0
                  [ (mkClause "  " (mkPath "a" ["b"]) [mkImport "C" None],
                     2%nat) ]
                  [ OtherLine "}" ] ] "") as [H _];
    [reflexivity|reflexivity|].
  exact H.
Defined.




(** ** The inner loop on an arbitrary cursor *)

Lemma skip_blank_spec ls :
  ls = repeat BlankLine (fst (skip_blank ls)) ++ snd (skip_blank ls)
  /\ no_blank_ahead (snd (skip_blank ls)) = true.
Proof.
  induction ls as [|[c| |t] ls [E Hr]]; try (split; reflexivity).
  simpl. destruct (skip_blank ls) as [n rest]. simpl in *.
  split; [rewrite <- E; reflexivity|exact Hr].
Qed.

Lemma line_clauses_blanks k ls :
  line_clauses (repeat BlankLine k ++ ls) = line_clauses ls.
Proof. induction k as [|k IH]; [reflexivity|exact IH]. Qed.

Lemma block_line_blanks k : forallb block_line (repeat BlankLine k) = true.
Proof. induction k as [|k IH]; [reflexivity|exact IH]. Qed.

Lemma collect_block_spec fuel cur c blk block n cur' :
  collect_block fuel cur c blk = Some (block, n, cur') ->
  exists before,
    remaining cur = before ++ repeat BlankLine n ++ remaining cur'
    /\ forallb block_line before = true
    /\ (before = [] \/ exists b' c', before = b' ++ [ImportLine c'])
    /\ block = blk ++ c :: line_clauses before
    /\ emitted cur' = emitted cur
    /\ ends_block (remaining cur') = true.
Proof.
  revert cur c blk. induction fuel as [|fuel IH]; intros cur c blk H;
    [discriminate H|].
  simpl in H. unfold skip_blank_lines in H.
  destruct (skip_blank_spec (remaining cur)) as [E Hr].
  destruct (skip_blank (remaining cur)) as [m r]. simpl in E, Hr.
  unfold match_import in H. simpl remaining in H.
  destruct r as [|[c'| |t] r].
  - injection H as <- <- <-. exists []. simpl.
    repeat split; [exact E|left; reflexivity].
  - destruct (IH _ _ _ H) as (before & Er & Hb & Hlast & Hblock & He & Hend).
    simpl in Er, He.
    exists (repeat BlankLine m ++ ImportLine c' :: before).
    repeat split.
    + rewrite E, Er, <- app_assoc. reflexivity.
    + rewrite forallb_app, block_line_blanks. simpl. exact Hb.
    + right. destruct Hlast as [->|(b' & c'' & ->)].
      * exists (repeat BlankLine m), c'. reflexivity.
      * exists (repeat BlankLine m ++ ImportLine c' :: b'), c''.
        rewrite <- app_assoc. reflexivity.
    + rewrite Hblock, line_clauses_blanks, <- app_assoc. reflexivity.
    + exact He.
    + exact Hend.
  - discriminate Hr.
  - injection H as <- <- <-. exists []. simpl.
    repeat split; [exact E|left; reflexivity].
Qed.

(** X13.  With more fuel than lines left the inner loop returns.  It reads
    only import statements and blank lines and stops in front of a line of
    other text or at the end; the block is the clauses gathered before,
    the given clause and the clauses of the statements read, in text order,
    so it is never empty; the count is that of the blank lines right in front
    of where it stops; and nothing is emitted. *)
Theorem collect_block_reads_block
    (fuel : nat) (cur : rewrite_cursor) (c : ImportClause)
    (blk : list ImportClause) :
  (length (remaining cur) < fuel)%nat ->
  exists block n cur' before,
    collect_block fuel cur c blk = Some (block, n, cur')
    /\ remaining cur = before ++ repeat BlankLine n ++ remaining cur'
    /\ forallb block_line before = true
    /\ (before = [] \/ exists b' c', before = b' ++ [ImportLine c'])
    /\ block = blk ++ c :: line_clauses before
    /\ emitted cur' = emitted cur
    /\ ends_block (remaining cur') = true.
Proof.
  intros Hfuel.
  destruct (collect_block_total fuel cur c blk Hfuel)
    as (block & n & cur' & E & _ & _).
  destruct (collect_block_spec _ _ _ _ _ _ _ E)
    as (before & H1 & H2 & H3 & H4 & H5 & H6).
  exists block, n, cur', before. repeat split; assumption.
Qed.

Lemma collect_block_reads_block_witness :
  exists block n cur' before,
    collect_block 6
      (mkCursor
         [ BlankLine; ImportLine (simple_clause "a" ["b"] "C"); BlankLine;
           BlankLine; OtherLine "class Y" ] "out")
      (simple_clause "a" ["b"] "D") []
    = Some (block, n, cur')
    /\ remaining
         (mkCursor
            [ BlankLine; ImportLine (simple_clause "a" ["b"] "C"); BlankLine;
              BlankLine; OtherLine "class Y" ] "out")
       = before ++ repeat BlankLine n ++ remaining cur'
    /\ forallb block_line before = true
    /\ (before = [] \/ exists b' c', before = b' ++ [ImportLine c'])
    /\ block = [] ++ simple_clause "a" ["b"] "D" :: line_clauses before
    /\ emitted cur' = "out"
    /\ ends_block (remaining cur') = true.
Proof.
  apply (collect_block_reads_block 6
           (mkCursor
              [ BlankLine; ImportLine (simple_clause "a" ["b"] "C");
                BlankLine; BlankLine; OtherLine "class Y" ] "out")
           (simple_clause "a" ["b"] "D") []).
  simpl. lia.
Defined.
